(** * Fetcher: a shallow embedding of [fetcher.py] and its properties

    The program fetches a list of URLs through a bounded thread pool,
    collects one [(url, result)] pair per URL, and optionally writes the
    pairs as JSON or CSV.

    Python strings are modelled as [string] (characters of code point
    below 256), the worker count as [Z] (a Python [int]), the process
    state (standard output, the file system, the requests issued) as an
    explicit [world], and exceptions as the [Raise] case of [result].
    The network, the file permissions and the thread interleaving are
    the environment: every theorem quantifies over them. *)

From Stdlib Require Import ZArith Ascii String Lia.
From stdpp Require Import base option list gmap strings ssreflect.

Local Open Scope Z_scope.

(** ** Characters and strings *)

Definition chr (n : nat) : ascii := ascii_of_nat n.
Definition ord (c : ascii) : nat := nat_of_ascii c.

Definition dquote : ascii := chr 34.
Definition backslash : ascii := chr 92.
Definition LF : ascii := chr 10.
Definition CR : ascii := chr 13.

Definition str1 (c : ascii) : string := String c EmptyString.

Fixpoint str_in (c : ascii) (s : string) : bool :=
  match s with
  | EmptyString => false
  | String c' s' => if decide (c' = c) then true else str_in c s'
  end.

Fixpoint str_rev_onto (s acc : string) : string :=
  match s with
  | EmptyString => acc
  | String c s' => str_rev_onto s' (String c acc)
  end.

Definition str_rev (s : string) : string := str_rev_onto s EmptyString.

(** [c.isspace()] for a character below 256. *)
Definition isspace (c : ascii) : bool :=
  let n := ord c in
  ((9 <=? n)%nat && (n <=? 13)%nat) || ((28 <=? n)%nat && (n <=? 32)%nat)
  || (n =? 133)%nat || (n =? 160)%nat.

Fixpoint lstrip (s : string) : string :=
  match s with
  | EmptyString => EmptyString
  | String c s' => if isspace c then lstrip s' else s
  end.

(** [s.strip()] *)
Definition strip (s : string) : string := str_rev (lstrip (str_rev (lstrip s))).

(** Truth value of a [str]: the empty string is false. *)
Definition str_truthy (s : string) : bool :=
  match s with EmptyString => false | _ => true end.

(** Truth value of an optional path ([None] or a [str]). *)
Definition truthy (o : option string) : bool :=
  match o with None => false | Some s => str_truthy s end.

(** ** The [json] module: [json.dumps(d, indent=2)] on a [str -> str] dict *)

Definition hex_digit (n : nat) : ascii :=
  if (n <? 10)%nat then chr (48 + n) else chr (87 + n).

(** ['\\u{0:04x}'.format(n)] for [n] below 256. *)
Definition unicode_escape (n : nat) : string :=
  String backslash
    (String (chr 117)
       (String (chr 48)
          (String (chr 48)
             (String (hex_digit (n / 16)) (str1 (hex_digit (n mod 16))))))).

(** One character under [ensure_ascii=True]: the quote and the backslash
    are escaped, the printable characters [' '..'~'] stand for
    themselves, [\b \t \n \f \r] have a short form and every other
    character is written as [\u00xx]. *)
Definition escape_char (c : ascii) : string :=
  let n := ord c in
  if (n =? 34)%nat then String backslash (str1 dquote)
  else if (n =? 92)%nat then String backslash (str1 backslash)
  else if ((32 <=? n) && (n <=? 126))%nat then str1 c
  else if (n =? 8)%nat then String backslash (str1 (chr 98))
  else if (n =? 9)%nat then String backslash (str1 (chr 116))
  else if (n =? 10)%nat then String backslash (str1 (chr 110))
  else if (n =? 12)%nat then String backslash (str1 (chr 102))
  else if (n =? 13)%nat then String backslash (str1 (chr 114))
  else unicode_escape n.

Fixpoint escape_body (s : string) : string :=
  match s with
  | EmptyString => EmptyString
  | String c s' => escape_char c +:+ escape_body s'
  end.

Definition json_string (s : string) : string :=
  String dquote (escape_body s +:+ str1 dquote).

(** A Python [dict] with [str] keys and values: insertion-ordered, one
    entry per key. *)
Definition pydict := list (string * string).


(** [d[k] = v]: an existing key keeps its position and takes the new
    value; a new key goes last. *)
Fixpoint dict_set (d : pydict) (k v : string) : pydict :=
  match d with
  | [] => [(k, v)]
  | (k', v') :: d' =>
      if decide (k' = k) then (k', v) :: d' else (k', v') :: dict_set d' k v
  end.

(** [{url: result for url, result in results}] *)
Definition dict_comprehension (results : list (string * string)) : pydict :=
  foldl (λ d kv, dict_set d kv.1 kv.2) [] results.

Definition json_item (kv : string * string) : string :=
  json_string kv.1 +:+ ": " +:+ json_string kv.2.

Fixpoint json_items (d : pydict) : string :=
  match d with
  | [] => EmptyString
  | [kv] => json_item kv
  | kv :: d' => json_item kv +:+ "," +:+ str1 LF +:+ "  " +:+ json_items d'
  end.

(** [json.dumps(d, indent=2)] *)
Definition json_dumps (d : pydict) : string :=
  match d with
  | [] => "{}"
  | _ => "{" +:+ str1 LF +:+ "  " +:+ json_items d +:+ str1 LF +:+ "}"
  end.

(** ** The [csv] module: [csv.writer] with the default [excel] dialect *)

Fixpoint csv_double_quotes (s : string) : string :=
  match s with
  | EmptyString => EmptyString
  | String c s' =>
      if decide (c = dquote) then String dquote (String dquote (csv_double_quotes s'))
      else String c (csv_double_quotes s')
  end.

(** [QUOTE_MINIMAL]: a field is quoted when it holds the delimiter, the
    quote character or a character of the line terminator. *)
Definition csv_needs_quotes (s : string) : bool :=
  str_in (chr 44) s || str_in dquote s || str_in CR s || str_in LF s.

Definition csv_field (s : string) : string :=
  if csv_needs_quotes s
  then String dquote (csv_double_quotes s +:+ str1 dquote)
  else s.

(** [csv_writer.writerow([a, b])] *)
Definition csv_row (a b : string) : string :=
  csv_field a +:+ "," +:+ csv_field b +:+ String CR (str1 LF).

Fixpoint csv_rows (rows : list (string * string)) : string :=
  match rows with
  | [] => EmptyString
  | (a, b) :: rows' => csv_row a b +:+ csv_rows rows'
  end.

(** ** Text files read line by line *)

(** Universal newlines on reading: [\r\n] and a lone [\r] become [\n]. *)
Fixpoint universal_newlines (s : string) : string :=
  match s with
  | EmptyString => EmptyString
  | String c s' =>
      if decide (c = CR) then
        match s' with
        | String c' s'' =>
            if decide (c' = LF) then String LF (universal_newlines s'')
            else String LF (universal_newlines s')
        | EmptyString => str1 LF
        end
      else String c (universal_newlines s')
  end.

(** [for line in f]: the lines of the text, each with its newline. *)
Fixpoint lines_from (cur : string) (s : string) : list string :=
  match s with
  | EmptyString =>
      match cur with EmptyString => [] | _ => [str_rev cur] end
  | String c s' =>
      if decide (c = LF) then str_rev (String c cur) :: lines_from EmptyString s'
      else lines_from (String c cur) s'
  end.

Definition file_lines (content : string) : list string :=
  lines_from EmptyString (universal_newlines content).

(** [[line.strip() for line in f if line.strip()]] *)
Definition read_urls (content : string) : list string :=
  omap (λ line, if str_truthy (strip line) then Some (strip line) else None)
       (file_lines content).

(** [sep.join(parts)] *)
Fixpoint str_join (sep : string) (parts : list string) : string :=
  match parts with
  | [] => EmptyString
  | [s] => s
  | s :: parts' => s +:+ sep +:+ str_join sep parts'
  end.

(** ** Exceptions, results and the world *)

(** An exception: its class and [str(exc)]. *)
Inductive exn := Exception (cls : string) (msg : string).

Definition exn_str (e : exn) : string :=
  match e with Exception _ msg => msg end.

Definition ValueError (msg : string) : exn := Exception "ValueError" msg.
Definition AttributeError (msg : string) : exn := Exception "AttributeError" msg.
Definition TypeError (msg : string) : exn := Exception "TypeError" msg.
Definition FileNotFoundError (path : string) : exn :=
  Exception "FileNotFoundError" ("[Errno 2] No such file or directory: '" +:+ path +:+ "'").
Definition PermissionError (path : string) : exn :=
  Exception "PermissionError" ("[Errno 13] Permission denied: '" +:+ path +:+ "'").

Inductive result (A : Type) :=
  | Ok (a : A)
  | Raise (e : exn).
Arguments Ok {A} a.
Arguments Raise {A} e.

(** What the process has done so far: the text printed, the files
    written, and the GET requests issued, in the order they were
    started. *)
Record world := World {
  stdout : string;
  files : gmap string string;
  requests : list string
}.

(** What [requests.get(url)] does: it returns a response, whatever its
    status code; or raises a [requests.RequestException] (a transport
    failure); or raises some other exception. *)
Inductive get_outcome :=
  | Response (status_code : Z) (text : string)
  | RequestException (cause : string)
  | OtherError (e : exn).

(** The environment of one run. [requests_get i url] is the outcome of
    the GET made for the [i]-th submitted URL; [can_write path] tells
    whether [open(path, 'w')] succeeds; [schedule j] picks which thread
    moves at step [j]; [yield_order] is the order in which [as_completed]
    hands the futures back. *)
Record environment := Environment {
  requests_get : nat → string → get_outcome;
  can_write : string → bool;
  schedule : nat → nat;
  yield_order : nat → nat
}.

(** Computations that read and change the world and may raise. *)
Definition M (A : Type) : Type := world → result A * world.

Global Instance M_ret : MRet M := λ A a w, (Ok a, w).
Global Instance M_bind : MBind M := λ A B f m w,
  match m w with
  | (Ok a, w') => f a w'
  | (Raise e, w') => (Raise e, w')
  end.

Definition raise {A} (e : exn) : M A := λ w, (Raise e, w).

(** [print(s)] *)
Definition print (s : string) : M unit := λ w,
  (Ok (), World (stdout w +:+ s +:+ str1 LF) (files w) (requests w)).

(** [with open(path, 'w') as f: f.write(content)]: the file is created
    or truncated, then holds [content]. *)
Definition write_file (env : environment) (path content : string) : M unit := λ w,
  if can_write env path
  then (Ok (), World (stdout w) (<[path := content]> (files w)) (requests w))
  else (Raise (PermissionError path), w).

(** [with open(path, 'r') as f]: the text of the file. *)
Definition read_file (path : string) : M string := λ w,
  match files w !! path with
  | Some content => (Ok content, w)
  | None => (Raise (FileNotFoundError path), w)
  end.

(** ** [fetch_url] *)

(** A task of the pool: the position of the URL in the input and the
    URL. The position tells apart two tasks for the same URL. *)
Definition task : Type := nat * string.

Definition fetch_url (env : environment) (t : task) : result string :=
  match requests_get env t.1 t.2 with
  | Response _ text => Ok text
  | RequestException cause => Ok ("Error: " +:+ cause)
  | OtherError e => Raise e
  end.

(** ** [concurrent.futures.ThreadPoolExecutor]

    The pool as an interleaving of atomic steps of the main thread
    (which submits the URLs one by one) and of the worker threads. *)

(** A worker thread is about to look at the queue ([Polling]), blocked
    on the empty queue ([Waiting]), or running a task. *)
Inductive worker :=
  | Polling
  | Waiting
  | Running (t : task).

Record pool := Pool {
  unsubmitted : list task;
  work_queue : list task;
  idle_semaphore : nat;
  threads : list worker;
  dispatched : list task;
  finished : list (task * result string)
}.

Inductive action :=
  | Submit
  | Act (i : nat).

Definition init_pool (tasks : list task) : pool := Pool tasks [] 0 [] [] [].

(** [executor.submit(fetch_url, url)]: the work item goes to the back of
    the queue; a new thread is started only when no thread is idle and
    fewer than [max_workers] threads exist. *)
Definition submit_step (max_workers : nat) (p : pool) : option pool :=
  match unsubmitted p with
  | [] => None
  | t :: rest =>
      let q := work_queue p ++ [t] in
      Some
        (if (0 <? idle_semaphore p)%nat then
           Pool rest q (pred (idle_semaphore p)) (threads p) (dispatched p) (finished p)
         else if (length (threads p) <? max_workers)%nat then
           Pool rest q (idle_semaphore p) (threads p ++ [Polling]) (dispatched p) (finished p)
         else
           Pool rest q (idle_semaphore p) (threads p) (dispatched p) (finished p))
  end.

(** One step of worker [i]: a polling worker takes the head of the queue
    or, on an empty queue, signals that it is idle and blocks; a blocked
    worker wakes up when the queue has an item; a running worker
    finishes its task, stores the outcome in the future and polls
    again. *)
Definition worker_step (fetch : task → result string) (i : nat) (p : pool)
  : option pool :=
  match threads p !! i with
  | None => None
  | Some Polling =>
      match work_queue p with
      | t :: q =>
          Some (Pool (unsubmitted p) q (idle_semaphore p)
                  (<[i := Running t]> (threads p)) (dispatched p ++ [t]) (finished p))
      | [] =>
          Some (Pool (unsubmitted p) [] (S (idle_semaphore p))
                  (<[i := Waiting]> (threads p)) (dispatched p) (finished p))
      end
  | Some Waiting =>
      match work_queue p with
      | t :: q =>
          Some (Pool (unsubmitted p) q (idle_semaphore p)
                  (<[i := Running t]> (threads p)) (dispatched p ++ [t]) (finished p))
      | [] => None
      end
  | Some (Running t) =>
      Some (Pool (unsubmitted p) (work_queue p) (idle_semaphore p)
              (<[i := Polling]> (threads p)) (dispatched p)
              (finished p ++ [(t, fetch t)]))
  end.

Definition pool_step (max_workers : nat) (fetch : task → result string)
    (a : action) (p : pool) : option pool :=
  match a with
  | Submit => submit_step max_workers p
  | Act i => worker_step fetch i p
  end.

Definition can_act (p : pool) (i : nat) : bool :=
  match threads p !! i with
  | None => false
  | Some Waiting => match work_queue p with [] => false | _ => true end
  | Some _ => true
  end.

(** The steps that can be taken in [p]. *)
Definition enabled (p : pool) : list action :=
  (match unsubmitted p with [] => [] | _ => [Submit] end)
  ++ (Act <$> filter (λ i, can_act p i = true) (seq 0 (length (threads p)))).

(** The tasks in flight. *)
Definition running_of (l : list worker) : list task :=
  omap (λ th, match th with Running t => Some t | _ => None end) l.

Definition running (p : pool) : list task := running_of (threads p).

(** The pool runs until no step is enabled; [sched] picks among the
    enabled steps. *)
Fixpoint run_pool (max_workers : nat) (fetch : task → result string)
    (sched : nat → nat) (step_no fuel : nat) (p : pool) : pool :=
  match fuel with
  | O => p
  | S fuel' =>
      match enabled p with
      | [] => p
      | a :: acts =>
          let a' := nth (sched step_no mod length (a :: acts)) (a :: acts) a in
          match pool_step max_workers fetch a' p with
          | Some p' => run_pool max_workers fetch sched (S step_no) fuel' p'
          | None => p
          end
      end
  end.

(** [as_completed(fs)]: every future is yielded once, in an order that
    depends on the run. *)
Fixpoint as_completed {A} (order : nat → nat) (n : nat) (fs : list A) : list A :=
  match n with
  | O => []
  | S n' =>
      let k := (order n' mod length fs)%nat in
      match fs !! k with
      | Some f => f :: as_completed order n' (delete k fs)
      | None => []
      end
  end.

(** ** [main] *)

(** The body of the loop over [as_completed]: the pair recorded for one
    finished future. *)
Definition collect (f : task * result string) : string * string :=
  match f.2 with
  | Ok data => (f.1.2, data)
  | Raise exc => (f.1.2, "Generated an exception: " +:+ exn_str exc)
  end.

(** The tasks submitted for [urls], in input order. *)
Definition tasks_of (urls : list string) : list task :=
  imap (λ i url, (i, url)) urls.

(** Lines 51-60: the pool is created, every URL is submitted, and the
    results are appended as the futures complete. *)
Definition dispatch (env : environment) (urls : list string) (max_workers : Z)
  : M (list (string * string)) := λ w,
  if max_workers <=? 0 then
    (Raise (ValueError "max_workers must be greater than 0"), w)
  else
    let p := run_pool (Z.to_nat max_workers) (fetch_url env) (schedule env)
               0 (5 * length urls) (init_pool (tasks_of urls)) in
    let results := collect <$> as_completed (yield_order env) (length (finished p)) (finished p) in
    (Ok results, World (stdout w) (files w) (requests w ++ (dispatched p).*2)).

(** Lines 62-68. *)
Definition emit_json (env : environment) (results : list (string * string))
    (output_file : option string) : M unit :=
  let output := json_dumps (dict_comprehension results) in
  match output_file with
  | Some path => if str_truthy path then write_file env path output else print output
  | None => print output
  end.

(** Lines 70-77. *)
Definition emit_csv (env : environment) (results : list (string * string))
    (output_file : option string) : M unit :=
  let no_target := print "Cannot output CSV to stdout. Please specify an output file." in
  match output_file with
  | Some path =>
      if str_truthy path
      then write_file env path (csv_row "URL" "Result" +:+ csv_rows results)
      else no_target
  | None => no_target
  end.

Definition main (env : environment) (urls : list string) (max_workers : Z)
    (output_file : option string) (output_json output_csv return_list : bool)
  : M (option (list (string * string))) :=
  results ← dispatch env urls max_workers;
  (if output_json then emit_json env results output_file else mret ());;
  (if output_csv then emit_csv env results output_file else mret ());;
  mret (if return_list then Some results else None).

(** ** The command line *)

Definition __version__ : string := "1.0".
Definition __author__ : string := "Hesam Aghajani".
Definition __description__ : string :=
  "Fetch multiple URLs concurrently using Python threads".

(** The text the f-string of lines 86-97 evaluates to. *)
Definition banner : string :=
  str_join (str1 LF)
    [ EmptyString;
      "███████╗███████╗████████╗ ██████╗██╗  ██╗███████╗██████╗ ";
      "██╔════╝██╔════╝╚══██╔══╝██╔════╝██║  ██║██╔════╝██╔══██╗";
      "█████╗  █████╗     ██║   ██║     ███████║█████╗  ██████╔╝";
      "██╔══╝  ██╔══╝     ██║   ██║     ██╔══██║██╔══╝  ██╔══██╗";
      "██║     ███████╗   ██║   ╚██████╗██║  ██║███████╗██║  ██║";
      "╚═╝     ╚══════╝   ╚═╝    ╚═════╝╚═╝  ╚═╝╚══════╝╚═╝  ╚═╝                                                   ";
      "Fetch URLs Concurrently";
      "Version: " +:+ __version__;
      "Author: " +:+ __author__;
      "Description: " +:+ __description__;
      "    " ].

(** The values [argparse] stores in the namespace. *)
Inductive pyval :=
  | VNone
  | VBool (b : bool)
  | VInt (n : Z)
  | VStr (s : string).

(** The command line after parsing: the positional [input] and the
    options [-o], [-j], [-c] and [-w] (default 5). *)
Record cli_args := CliArgs {
  arg_input : string;
  arg_output : option string;
  arg_json : bool;
  arg_csv : bool;
  arg_workers : Z
}.

(** [parser.parse_args()]: the namespace has one attribute per declared
    argument, named after it. *)
Definition parse_args (a : cli_args) : gmap string pyval :=
  <["input" := VStr (arg_input a)]>
  (<["output" := match arg_output a with Some s => VStr s | None => VNone end]>
  (<["json" := VBool (arg_json a)]>
  (<["csv" := VBool (arg_csv a)]>
  (<["workers" := VInt (arg_workers a)]> ∅)))).

(** [args.name] *)
Definition getattr (args : gmap string pyval) (name : string) : M pyval :=
  match args !! name with
  | Some v => mret v
  | None => raise (AttributeError ("'Namespace' object has no attribute '" +:+ name +:+ "'"))
  end.

Definition as_path (v : pyval) : M string :=
  match v with
  | VStr s => mret s
  | _ => raise (TypeError "expected str, bytes or os.PathLike object")
  end.

Definition as_int (v : pyval) : M Z :=
  match v with
  | VInt n => mret n
  | VBool b => mret (if b then 1 else 0)
  | _ => raise (TypeError "'<=' not supported between instances")
  end.

Definition as_target (v : pyval) : M (option string) :=
  match v with
  | VStr s => mret (Some s)
  | VNone => mret None
  | _ => raise (TypeError "expected str, bytes or os.PathLike object")
  end.

Definition as_bool (v : pyval) : bool :=
  match v with
  | VNone => false
  | VBool b => b
  | VInt n => negb (n =? 0)
  | VStr s => str_truthy s
  end.

(** Lines 85-118, the [__main__] block. *)
Definition cli (env : environment) (argv : cli_args) : M unit :=
  print banner;;
  let args := parse_args argv in
  input_file ← getattr args "input_file";
  path ← as_path input_file;
  content ← read_file path;
  let urls := read_urls content in
  max_workers ← getattr args "max_workers";
  output_file ← getattr args "output_file";
  output_json ← getattr args "json";
  output_csv ← getattr args "csv";
  w ← as_int max_workers;
  target ← as_target output_file;
  main env urls w target (as_bool output_json) (as_bool output_csv) false;;
  mret ().

(** ** Notions used by the statements *)

(** One atomic step of the pool, by any thread. *)
Definition pool_transition (max_workers : nat) (fetch : task → result string)
    (p p' : pool) : Prop :=
  ∃ a, pool_step max_workers fetch a p = Some p'.

(** The states the pool can be in, under any interleaving. *)
Definition reachable (max_workers : nat) (fetch : task → result string)
    (tasks : list task) (p : pool) : Prop :=
  rtc (pool_transition max_workers fetch) (init_pool tasks) p.

(** The pair [main] records for each URL: the outcome of its own GET. *)
Definition expected_results (env : environment) (urls : list string)
  : list (string * string) :=
  (λ t, collect (t, fetch_url env t)) <$> tasks_of urls.

Definition worker_weight (th : worker) : nat :=
  match th with
  | Running _ => 2
  | Polling => 1
  | Waiting => 0
  end.

(** A bound on the number of steps the pool can still take. *)
Definition pool_measure (p : pool) : nat :=
  5 * length (unsubmitted p) + 3 * length (work_queue p)
  + sum_list (worker_weight <$> threads p).

Record pool_inv (max_workers : nat) (fetch : task → result string)
    (tasks : list task) (p : pool) : Prop := PoolInv {
  inv_threads : (length (threads p) ≤ max_workers)%nat;
  inv_order : dispatched p ++ work_queue p ++ unsubmitted p = tasks;
  inv_flight : (finished p).*1 ++ running p ≡ₚ dispatched p;
  inv_outcomes : Forall (λ f, f.2 = fetch f.1) (finished p);
  inv_live : threads p = [] → work_queue p = [] ∧ idle_semaphore p = 0%nat
}.

(** ** A sample run, used to instantiate the statements *)

(** A network where [http://bad.test] refuses connections and every
    other URL answers 404 with a body. *)
Definition sample_env : environment :=
  Environment
    (λ _ url, if decide (url = "http://bad.test")
              then RequestException "connection refused"
              else Response 404 "not found")
    (λ _, true) (λ n, n) (λ n, n).

Definition sample_world : world := World EmptyString ∅ [].

Definition sample_urls : list string :=
  ["http://a"; "http://bad.test"; "http://a"].

(** Every character of [s] is an ASCII character, so [s] is written as
    the same bytes under any ASCII-compatible encoding. *)
Fixpoint is_ascii (s : string) : bool :=
  match s with
  | EmptyString => true
  | String c s' => (ord c <? 128)%nat && is_ascii s'
  end.

(** A state of the pool of the sample run with two workers: both are
    busy and the third task waits in the queue. *)
Definition sample_pool : pool :=
  Pool [] [(2%nat, "http://a")] 0
    [Running (0%nat, "http://a"); Running (1%nat, "http://bad.test")]
    [(0%nat, "http://a"); (1%nat, "http://bad.test")] [].


(** The sample network with a different interleaving and yield order. *)
Definition sample_env_shuffled : environment :=
  Environment (requests_get sample_env) (λ _, true)
    (λ n, (7 * n + 3)%nat) (λ n, (n + 1)%nat).

(** The sample network on a read-only file system. *)
Definition sample_env_readonly : environment :=
  Environment (requests_get sample_env) (λ _, false) (λ n, n) (λ n, n).

(** The pool of a run over the single URL [http://a] once its fetch is
    done: the only worker is blocked on the empty queue. *)
Definition sample_idle_pool : pool :=
  Pool [] [] 1 [Waiting] [(0%nat, "http://a")]
    [((0%nat, "http://a"), Ok "not found")].

(** A state of a run with a single worker: the first fetch is done, the
    second is in flight, the third waits in the queue. *)
Definition sample_serial_pool : pool :=
  Pool [] [(2%nat, "http://a")] 0
    [Running (1%nat, "http://bad.test")]
    [(0%nat, "http://a"); (1%nat, "http://bad.test")]
    [((0%nat, "http://a"), Ok "not found")].

(** [s] is empty or starts with a character that is not white space. *)
Definition starts_clean (s : string) : Prop :=
  match s with
  | EmptyString => True
  | String c _ => isspace c = false
  end.

(** ** Reading the output back

    The readers below are the inverse of the writers above; they are
    used to show that the text written determines the data. *)




(** Reading a quoted CSV field after its opening quote: a doubled quote
    stands for a quote, a single one closes the field. *)
Fixpoint scan_quoted (s : string) : option (string * string) :=
  match s with
  | EmptyString => None
  | String c s' =>
      if decide (c = dquote) then
        match s' with
        | String c' s'' =>
            if decide (c' = dquote) then
              match scan_quoted s'' with
              | Some (t, r) => Some (String dquote t, r)
              | None => None
              end
            else Some (EmptyString, s')
        | EmptyString => Some (EmptyString, EmptyString)
        end
      else
        match scan_quoted s' with
        | Some (t, r) => Some (String c t, r)
        | None => None
        end
  end.

(** Reading an unquoted CSV field: up to the delimiter or the end of the
    line. *)
Fixpoint scan_plain (s : string) : string * string :=
  match s with
  | EmptyString => (EmptyString, EmptyString)
  | String c s' =>
      if decide (c = chr 44) then (EmptyString, s)
      else if decide (c = CR) then (EmptyString, s)
      else if decide (c = LF) then (EmptyString, s)
      else (String c (scan_plain s').1, (scan_plain s').2)
  end.

(** Reading one CSV field: the field and the text from its terminator on. *)
Definition scan_field (s : string) : option (string * string) :=
  match s with
  | String c s' => if decide (c = dquote) then scan_quoted s' else Some (scan_plain s)
  | EmptyString => Some (EmptyString, EmptyString)
  end.

(** * Properties *)

(** ** Lists *)

Lemma weight_insert (l : list worker) i x y :
  l !! i = Some x →
  (sum_list (worker_weight <$> <[i:=y]> l) + worker_weight x
   = sum_list (worker_weight <$> l) + worker_weight y)%nat.
Proof.
  revert i. induction l as [|z l IH]; intros [|i] Hi; simplify_eq/=; [lia|].
  specialize (IH i Hi). lia.
Qed.

Lemma running_insert_start (l : list worker) i x t :
  l !! i = Some x → (∀ t', x ≠ Running t') →
  running_of (<[i:=Running t]> l) ≡ₚ t :: running_of l.
Proof.
  revert i. induction l as [|z l IH]; intros [|i] Hi Hx; simplify_eq/=.
  - destruct x; [done|done|by destruct (Hx t0)].
  - rw /running_of /=. destruct z; simpl; rw -/(running_of _).
    + by eapply IH.
    + by eapply IH.
    + rw (IH i Hi Hx). apply Permutation_swap.
Qed.

Lemma running_insert_stop (l : list worker) i t y :
  l !! i = Some (Running t) → (∀ t', y ≠ Running t') →
  running_of l ≡ₚ t :: running_of (<[i:=y]> l).
Proof.
  revert i. induction l as [|z l IH]; intros [|i] Hi Hy; simplify_eq/=.
  - destruct y; [done|done|by destruct (Hy t0)].
  - rw /running_of /=. destruct z; simpl; rw -/(running_of _).
    + by eapply IH.
    + by eapply IH.
    + rw (IH i Hi Hy). apply Permutation_swap.
Qed.

Lemma running_insert_same (l : list worker) i x y :
  l !! i = Some x → (∀ t', x ≠ Running t') → (∀ t', y ≠ Running t') →
  running_of (<[i:=y]> l) = running_of l.
Proof.
  revert i. induction l as [|z l IH]; intros [|i] Hi Hx Hy; simplify_eq/=.
  - destruct x; [| |by destruct (Hx t)]; (destruct y; [| |by destruct (Hy t)]); done.
  - rw /running_of /= -!/(running_of _). by rw (IH i Hi Hx Hy).
Qed.

Lemma running_length (l : list worker) :
  (length (running_of l) ≤ length l)%nat.
Proof.
  induction l as [|[| |t] l IH]; simpl; lia.
Qed.

(** ** The thread pool *)

Section pool.
Context (max_workers : nat) (fetch : task → result string) (tasks : list task).
Hypothesis positive_workers : (1 ≤ max_workers)%nat.

Local Abbreviation inv := (pool_inv max_workers fetch tasks).
Local Abbreviation step := (pool_step max_workers fetch).

Lemma pool_inv_init : inv (init_pool tasks).
Proof.
  split; simpl; try done. lia.
Qed.

Lemma insert_not_nil (l : list worker) i x y :
  l !! i = Some x → <[i:=y]> l ≠ [].
Proof.
  intros Hi Hnil. apply (f_equal length) in Hnil.
  rw length_insert in Hnil. apply lookup_lt_Some in Hi. simpl in Hnil. lia.
Qed.

Lemma pool_inv_submit p p' :
  inv p → submit_step max_workers p = Some p' → inv p'.
Proof.
  intros [Hth Hord Hfl Hout Hlive] Hstep. rw /submit_step in Hstep.
  destruct (unsubmitted p) as [|t rest] eqn:Hun; [done|].
  injection Hstep as <-.
  assert (dispatched p ++ (work_queue p ++ [t]) ++ rest = tasks) as Hord'.
  { by rw -Hord -!(assoc_L (++)) /=. }
  destruct (0 <? idle_semaphore p)%nat eqn:Hsem;
    [|destruct (length (threads p) <? max_workers)%nat eqn:Hlen];
    split; simpl; try done.
  - intros Hnil. destruct (Hlive Hnil) as [_ Hz].
    apply Nat.ltb_lt in Hsem. lia.
  - rw length_app /=. apply Nat.ltb_lt in Hlen. lia.
  - by rw /running /= /running_of omap_app /= app_nil_r.
  - intros Hnil. by destruct (threads p).
  - intros Hnil. apply Nat.ltb_ge in Hlen. rw Hnil /= in Hlen. lia.
Qed.

Lemma pool_inv_worker i p p' :
  inv p → worker_step fetch i p = Some p' → inv p'.
Proof.
  intros [Hth Hord Hfl Hout Hlive] Hstep. rw /worker_step in Hstep.
  destruct (threads p !! i) as [th|] eqn:Hi; [|done].
  destruct th as [| |t]; [destruct (work_queue p) as [|t q] eqn:Hq
                         |destruct (work_queue p) as [|t q] eqn:Hq|];
    try done; injection Hstep as <-; split; simpl;
    try (by rw length_insert); try done;
    try (by intros Hnil; destruct (insert_not_nil _ _ _ _ Hi Hnil)).
  - by rw /running /= (running_insert_same _ _ _ _ Hi).
  - by rw -Hord -!(assoc_L (++)) /=.
  - rw /running /= (running_insert_start _ _ _ _ Hi) // -Hfl -Permutation_middle.
    apply Permutation_cons_append.
  - by rw -Hord -!(assoc_L (++)) /=.
  - rw /running /= (running_insert_start _ _ _ _ Hi) // -Hfl -Permutation_middle.
    apply Permutation_cons_append.
  - rw /running /= fmap_app /= -(assoc_L (++)) /= -Permutation_middle.
    rw Permutation_middle -Hfl. apply Permutation_app_head.
    symmetry. by apply running_insert_stop.
  - apply Forall_app. split; [done|]. by apply Forall_singleton.
Qed.

Lemma pool_inv_step a p p' : inv p → step a p = Some p' → inv p'.
Proof.
  destruct a; [apply pool_inv_submit | apply pool_inv_worker].
Qed.

Lemma pool_inv_reachable p : reachable max_workers fetch tasks p → inv p.
Proof.
  revert p. apply (rtc_ind_r (λ p, inv p) (init_pool tasks)).
  - apply pool_inv_init.
  - intros p p' _ [a Ha] IH. by eapply pool_inv_step.
Qed.
Lemma pool_step_measure a p p' :
  step a p = Some p' → (pool_measure p' < pool_measure p)%nat.
Proof.
  destruct a as [|i]; simpl.
  - rw /submit_step. destruct (unsubmitted p) as [|t rest] eqn:Hun; [done|].
    intros [= <-]. rw /pool_measure Hun.
    destruct (0 <? _)%nat; [|destruct (_ <? _)%nat]; simpl;
      rw ?length_app ?fmap_app ?sum_list_with_app /=; lia.
  - rw /worker_step. destruct (threads p !! i) as [th|] eqn:Hi; [|done].
    destruct th as [| |t];
      [destruct (work_queue p) as [|t q] eqn:Hq
      |destruct (work_queue p) as [|t q] eqn:Hq|];
      try done; intros [= <-]; rw /pool_measure /= ?Hq;
      match goal with
      | |- context [<[i:=?y]> _] => pose proof (weight_insert _ _ _ y Hi)
      end; simpl in *; lia.
Qed.

Lemma enabled_step a p : a ∈ enabled p → is_Some (step a p).
Proof.
  rw /enabled elem_of_app. intros [H|H].
  - destruct (unsubmitted p) as [|t rest] eqn:Hun; [by apply not_elem_of_nil in H|].
    apply list_elem_of_singleton in H as ->. rw /= /submit_step Hun. eauto.
  - apply list_elem_of_fmap in H as (i & -> & Hi).
    apply list_elem_of_filter in Hi as [Hact _].
    rw /can_act in Hact. rw /= /worker_step.
    destruct (threads p !! i) as [[| |t]|]; try done;
      destruct (work_queue p); eauto; done.
Qed.

Lemma not_enabled_waiting p i th :
  enabled p = [] → threads p !! i = Some th → th = Waiting ∧ work_queue p = [].
Proof.
  rw /enabled. intros [_ Hacts]%app_eq_nil Hi.
  apply fmap_nil_inv in Hacts.
  destruct (can_act p i) eqn:Hact.
  - assert (i ∈ filter (λ i, can_act p i = true) (seq 0 (length (threads p)))) as Hin.
    { apply list_elem_of_filter. split; [done|]. apply elem_of_seq.
      apply lookup_lt_Some in Hi. lia. }
    rw Hacts in Hin. by apply not_elem_of_nil in Hin.
  - rw /can_act Hi in Hact. destruct th; [done| |done].
    by destruct (work_queue p).
Qed.

Lemma running_of_waiting (l : list worker) :
  Forall (λ th, th = Waiting) l → running_of l = [].
Proof.
  induction 1 as [|th l -> _ IH]; [done|]. by rw /running_of /= -/(running_of l).
Qed.

Lemma quiescent p :
  inv p → enabled p = [] →
  unsubmitted p = [] ∧ work_queue p = [] ∧ running p = [].
Proof.
  intros Hinv Hen. split; [|split].
  - rw /enabled in Hen. apply app_eq_nil in Hen as [Hsub _].
    by destruct (unsubmitted p).
  - destruct (threads p) as [|th l] eqn:Hth.
    + by apply (inv_live _ _ _ _ Hinv).
    + by apply (not_enabled_waiting p 0%nat th Hen); rw Hth.
  - apply running_of_waiting, Forall_lookup. intros i th Hi.
    by apply (not_enabled_waiting p i th Hen).
Qed.

Lemma nth_choice (sched : nat → nat) n a (acts : list action) :
  nth (sched n mod length (a :: acts)) (a :: acts) a ∈ a :: acts.
Proof.
  apply list_elem_of_In, nth_In, Nat.mod_upper_bound. simpl. lia.
Qed.

Lemma run_pool_quiescent sched fuel n p :
  (pool_measure p ≤ fuel)%nat →
  enabled (run_pool max_workers fetch sched n fuel p) = [].
Proof.
  revert n p. induction fuel as [|fuel IH]; intros n p Hfuel; simpl.
  - destruct (enabled p) as [|a acts] eqn:Hen; [done|].
    destruct (enabled_step a p) as [p' Hp']; [rw Hen; by left|].
    apply pool_step_measure in Hp'. lia.
  - destruct (enabled p) as [|a acts] eqn:Hen; [done|].
    pose proof (nth_choice sched n a acts) as Hin. rw -Hen in Hin.
    destruct (enabled_step _ p Hin) as [p' Hp']. rw Hen in Hp'. rw Hp'.
    apply IH. apply pool_step_measure in Hp'. lia.
Qed.

Lemma run_pool_steps sched fuel n p :
  rtc (pool_transition max_workers fetch) p
    (run_pool max_workers fetch sched n fuel p).
Proof.
  revert n p. induction fuel as [|fuel IH]; intros n p; simpl; [done|].
  destruct (enabled p) as [|a acts]; [done|].
  destruct (step _ p) as [p'|] eqn:Hp'; [|done].
  eapply rtc_l; [by eexists|]. apply IH.
Qed.
End pool.

(** ** [as_completed] and the dispatcher *)

Lemma as_completed_perm {A} (order : nat → nat) (fs : list A) :
  as_completed order (length fs) fs ≡ₚ fs.
Proof.
  remember (length fs) as n eqn:Hn. revert fs Hn.
  induction n as [|n IH]; intros fs Hn; simpl.
  - by destruct fs.
  - destruct (fs !! (order n mod length fs)%nat) as [f|] eqn:Hf.
    + etrans; [|symmetry; by apply delete_Permutation].
      constructor. apply IH. rw length_delete; [lia|by eexists].
    + apply lookup_ge_None in Hf.
      pose proof (Nat.mod_upper_bound (order n) (length fs)). lia.
Qed.

Lemma tasks_of_urls (urls : list string) : (tasks_of urls).*2 = urls.
Proof.
  rw /tasks_of fmap_imap (imap_ext _ (λ _ url, url)); [|done].
  induction urls as [|url urls IH]; [done|]. rw imap_cons. f_equal. apply IH.
Qed.

Lemma tasks_of_length (urls : list string) : length (tasks_of urls) = length urls.
Proof. apply length_imap. Qed.

Lemma finished_outcomes (fetch : task → result string) (fs : list (task * result string)) :
  Forall (λ f, f.2 = fetch f.1) fs → fs = (λ t, (t, fetch t)) <$> fs.*1.
Proof.
  induction 1 as [|[t r] fs Hr _ IH]; [done|]. simpl in *. subst r.
  by f_equal.
Qed.

Lemma dispatch_spec (env : environment) (urls : list string) (max_workers : Z)
    (w : world) :
  1 ≤ max_workers →
  ∃ results,
    dispatch env urls max_workers w
    = (Ok results, World (stdout w) (files w) (requests w ++ urls))
    ∧ results ≡ₚ expected_results env urls.
Proof.
  intros Hw. rw /dispatch.
  destruct (max_workers <=? 0) eqn:Hle; [apply Z.leb_le in Hle; lia|].
  set (p := run_pool _ _ _ _ _ _).
  assert (1 ≤ Z.to_nat max_workers)%nat as Hnat by lia.
  assert (pool_inv (Z.to_nat max_workers) (fetch_url env) (tasks_of urls) p) as Hinv.
  { apply pool_inv_reachable; [done|]. apply run_pool_steps. }
  assert (enabled p = []) as Hen.
  { apply run_pool_quiescent; [done|]. pose proof (tasks_of_length urls) as Hlen.
    rw /pool_measure. cbn [init_pool unsubmitted work_queue threads length fmap list_fmap sum_list sum_list_with].
    lia. }
  destruct (quiescent _ _ _ Hnat p Hinv Hen) as (Hun & Hq & Hrun).
  pose proof (inv_order _ _ _ _ Hinv) as Hord.
  pose proof (inv_flight _ _ _ _ Hinv) as Hfl.
  rw Hun Hq !app_nil_r in Hord. rw Hrun app_nil_r Hord in Hfl.
  eexists. split.
  - by rw Hord tasks_of_urls.
  - rw as_completed_perm /expected_results.
    rw {1}(finished_outcomes _ _ (inv_outcomes _ _ _ _ Hinv)).
    by rw Hfl -list_fmap_compose.
Qed.

Lemma expected_results_urls (env : environment) (urls : list string) :
  (expected_results env urls).*1 = urls.
Proof.
  rw /expected_results -list_fmap_compose -{2}(tasks_of_urls urls).
  apply list_fmap_ext. intros _ t _. rw /= /collect /=.
  by destruct (fetch_url env t).
Qed.

Lemma expected_results_lookup (env : environment) (urls : list string) i url :
  urls !! i = Some url →
  collect ((i, url), fetch_url env (i, url)) ∈ expected_results env urls.
Proof.
  intros Hi. rw /expected_results. apply list_elem_of_fmap.
  exists (i, url). split; [done|]. apply list_elem_of_lookup. exists i.
  by rw /tasks_of list_lookup_imap Hi.
Qed.

(** ** The dictionary built for the JSON output *)


Lemma dict_keys_set (d : pydict) k v :
  (dict_set d k v).*1 = if decide (k ∈ d.*1) then d.*1 else d.*1 ++ [k].
Proof.
  induction d as [|[k0 v0] d IH].
  - case_decide as H; [by apply not_elem_of_nil in H|done].
  - cbn [dict_set]. destruct (decide (k0 = k)) as [->|Hne]; rw !fmap_cons /=.
    + destruct (decide (k ∈ k :: d.*1)) as [|H]; [done|]. destruct H. by left.
    + rw IH. destruct (decide (k ∈ d.*1)) as [Hin|Hin];
        destruct (decide (k ∈ k0 :: d.*1)) as [H|H]; try done.
      * destruct H. by right.
      * apply elem_of_cons in H as [?|?]; by simplify_eq.
Qed.

Lemma dict_set_NoDup (d : pydict) k v : NoDup d.*1 → NoDup (dict_set d k v).*1.
Proof.
  intros Hd. rw dict_keys_set. case_decide as Hin; [done|].
  apply NoDup_app. split; [done|]. split; [|apply NoDup_singleton].
  intros x Hx ->%list_elem_of_singleton. done.
Qed.

Lemma dict_comprehension_snoc (results : list (string * string)) k v :
  dict_comprehension (results ++ [(k, v)]) = dict_set (dict_comprehension results) k v.
Proof. by rw /dict_comprehension foldl_app. Qed.

Lemma dict_comprehension_NoDup (results : list (string * string)) :
  NoDup (dict_comprehension results).*1.
Proof.
  induction results as [|[k v] results IH] using rev_ind; [constructor|].
  rw dict_comprehension_snoc. by apply dict_set_NoDup.
Qed.

Lemma dict_comprehension_keys (results : list (string * string)) url :
  url ∈ (dict_comprehension results).*1 ↔ url ∈ results.*1.
Proof.
  revert url. induction results as [|[k v] results IH] using rev_ind;
    intros url; [done|].
  rw dict_comprehension_snoc dict_keys_set fmap_app /= elem_of_app list_elem_of_singleton.
  destruct (decide (k ∈ (dict_comprehension results).*1)) as [Hin|Hin];
    rw ?elem_of_app ?list_elem_of_singleton IH; [|done].
  apply IH in Hin. split; [by left|]. intros [?|Heq]; [done|by subst url].
Qed.


(** ** The formatter *)

Lemma emit_json_stdout env results output_file w :
  truthy output_file = false →
  emit_json env results output_file w
  = (Ok (), World (stdout w +:+ json_dumps (dict_comprehension results) +:+ str1 LF)
              (files w) (requests w)).
Proof.
  rw /emit_json. destruct output_file as [path|]; [|done].
  simpl. by intros ->.
Qed.

Lemma emit_json_file env results path w :
  str_truthy path = true → can_write env path = true →
  emit_json env results (Some path) w
  = (Ok (), World (stdout w)
              (<[path := json_dumps (dict_comprehension results)]> (files w))
              (requests w)).
Proof.
  intros Hp Hw. by rw /emit_json Hp /write_file Hw.
Qed.

Lemma emit_csv_stdout env results output_file w :
  truthy output_file = false →
  emit_csv env results output_file w
  = (Ok (), World (stdout w
                   +:+ "Cannot output CSV to stdout. Please specify an output file."
                   +:+ str1 LF)
              (files w) (requests w)).
Proof.
  rw /emit_csv. destruct output_file as [path|]; [|done].
  simpl. by intros ->.
Qed.

Lemma emit_csv_file env results path w :
  str_truthy path = true → can_write env path = true →
  emit_csv env results (Some path) w
  = (Ok (), World (stdout w)
              (<[path := csv_row "URL" "Result" +:+ csv_rows results]> (files w))
              (requests w)).
Proof.
  intros Hp Hw. by rw /emit_csv Hp /write_file Hw.
Qed.

Lemma emit_json_ok env results output_file w :
  (∀ path, output_file = Some path → can_write env path = true) →
  ∃ w', emit_json env results output_file w = (Ok (), w').
Proof.
  intros Hw. destruct (truthy output_file) eqn:Ht.
  - destruct output_file as [path|]; [|done]. rw emit_json_file; eauto.
  - rw emit_json_stdout; eauto.
Qed.

Lemma emit_csv_ok env results output_file w :
  (∀ path, output_file = Some path → can_write env path = true) →
  ∃ w', emit_csv env results output_file w = (Ok (), w').
Proof.
  intros Hw. destruct (truthy output_file) eqn:Ht.
  - destruct output_file as [path|]; [|done]. rw emit_csv_file; eauto.
  - rw emit_csv_stdout; eauto.
Qed.

Lemma main_unfold env urls max_workers output_file output_json output_csv
    return_list w results w1 :
  dispatch env urls max_workers w = (Ok results, w1) →
  main env urls max_workers output_file output_json output_csv return_list w
  = match (if output_json then emit_json env results output_file else mret ()) w1 with
    | (Ok _, w2) =>
        match (if output_csv then emit_csv env results output_file else mret ()) w2 with
        | (Ok _, w3) => (Ok (if return_list then Some results else None), w3)
        | (Raise e, w3) => (Raise e, w3)
        end
    | (Raise e, w2) => (Raise e, w2)
    end.
Proof.
  intros Hd. rw /main /mbind /M_bind Hd.
  destruct (_ w1) as [[[]|e] w2]; [|done].
  by destruct (_ w2) as [[[]|e] w3].
Qed.

(** * The claims *)

(** C1: for every list of URLs and every [max_workers >= 1] the dispatcher
    returns normally with exactly one [(url, result)] pair per submitted
    URL: the result list is a rearrangement of the list that pairs each
    input URL, in each of its positions, with the outcome of its own
    fetch; so it has the length of the input, and its URLs are the input
    URLs, none dropped and none duplicated. Each URL is requested once, in
    input order, and an empty input gives an empty result list and leaves
    the world untouched (no request is made). *)
Theorem C1_one_result_per_url (env : environment) (urls : list string)
    (max_workers : Z) (w : world) :
  1 ≤ max_workers →
  ∃ results w',
    dispatch env urls max_workers w = (Ok results, w')
    ∧ results ≡ₚ expected_results env urls
    ∧ length results = length urls
    ∧ results.*1 ≡ₚ urls
    ∧ requests w' = requests w ++ urls
    ∧ (urls = [] → results = [] ∧ w' = w).
Proof.
  intros Hw. destruct (dispatch_spec env urls max_workers w Hw) as (results & Hd & Hperm).
  exists results, (World (stdout w) (files w) (requests w ++ urls)).
  split; [done|]. split; [done|]. split; [|split; [|split; [done|]]].
  - by rw Hperm length_fmap tasks_of_length.
  - by rw Hperm expected_results_urls.
  - intros ->. split.
    + apply Permutation_nil_r. by rw Hperm.
    + destruct w. by rw /= app_nil_r.
Qed.

Lemma C1_one_result_per_url_witness :
  1 ≤ 2 ∧
  ∃ results w',
    dispatch sample_env sample_urls 2 sample_world = (Ok results, w')
    ∧ results ≡ₚ expected_results sample_env sample_urls
    ∧ length results = length sample_urls
    ∧ results.*1 ≡ₚ sample_urls
    ∧ requests w' = requests sample_world ++ sample_urls
    ∧ (sample_urls = [] → results = [] ∧ w' = sample_world).
Proof.
  split; [lia|]. apply (C1_one_result_per_url sample_env sample_urls 2 sample_world). lia.
Defined.

(** C2: when the GET made for a submitted URL raises a transport-level
    error ([requests.RequestException]) with description [cause], the
    fetch task returns the string ["Error: " + cause] instead of raising;
    the dispatcher returns normally, its result list holds the pair
    [(url, "Error: " + cause)], and every other URL still has its pair
    (the list is a rearrangement of the expected one). *)
Theorem C2_transport_error_recorded (env : environment) (urls : list string)
    (max_workers : Z) (w : world) (i : nat) (url cause : string) :
  1 ≤ max_workers →
  urls !! i = Some url →
  requests_get env i url = RequestException cause →
  fetch_url env (i, url) = Ok ("Error: " +:+ cause)
  ∧ ∃ results w',
      dispatch env urls max_workers w = (Ok results, w')
      ∧ (url, "Error: " +:+ cause) ∈ results
      ∧ results ≡ₚ expected_results env urls.
Proof.
  intros Hw Hi Hget.
  assert (fetch_url env (i, url) = Ok ("Error: " +:+ cause)) as Hf.
  { by rw /fetch_url /= Hget. }
  split; [done|].
  destruct (dispatch_spec env urls max_workers w Hw) as (results & Hd & Hperm).
  eexists _, _. split; [done|]. split; [|done].
  rw Hperm. pose proof (expected_results_lookup env urls i url Hi) as Hin.
  by rw Hf in Hin.
Qed.

Lemma C2_transport_error_recorded_witness :
  1 ≤ 2 ∧
  sample_urls !! 1%nat = Some "http://bad.test" ∧
  requests_get sample_env 1 "http://bad.test" = RequestException "connection refused" ∧
  (fetch_url sample_env (1%nat, "http://bad.test") = Ok ("Error: " +:+ "connection refused")
   ∧ ∃ results w',
       dispatch sample_env sample_urls 2 sample_world = (Ok results, w')
       ∧ ("http://bad.test", "Error: " +:+ "connection refused") ∈ results
       ∧ results ≡ₚ expected_results sample_env sample_urls).
Proof.
  split; [lia|]. split; [reflexivity|]. split; [reflexivity|].
  apply (C2_transport_error_recorded sample_env sample_urls 2 sample_world 1
           "http://bad.test" "connection refused");
    [lia|reflexivity|reflexivity].
Defined.

(** C7: when the GET made for a submitted URL returns a response, whatever
    its status code, the fetch task returns the response body as text, and
    the dispatcher records the pair [(url, body)]: a non-2xx status is not
    turned into an error outcome. *)
Theorem C7_status_is_not_an_error (env : environment) (urls : list string)
    (max_workers : Z) (w : world) (i : nat) (url : string)
    (status_code : Z) (body : string) :
  1 ≤ max_workers →
  urls !! i = Some url →
  requests_get env i url = Response status_code body →
  fetch_url env (i, url) = Ok body
  ∧ ∃ results w',
      dispatch env urls max_workers w = (Ok results, w')
      ∧ (url, body) ∈ results.
Proof.
  intros Hw Hi Hget.
  assert (fetch_url env (i, url) = Ok body) as Hf.
  { by rw /fetch_url /= Hget. }
  split; [done|].
  destruct (dispatch_spec env urls max_workers w Hw) as (results & Hd & Hperm).
  eexists _, _. split; [done|].
  rw Hperm. pose proof (expected_results_lookup env urls i url Hi) as Hin.
  by rw Hf in Hin.
Qed.

Lemma C7_status_is_not_an_error_witness :
  1 ≤ 2 ∧
  sample_urls !! 0%nat = Some "http://a" ∧
  requests_get sample_env 0 "http://a" = Response 404 "not found" ∧
  (fetch_url sample_env (0%nat, "http://a") = Ok "not found"
   ∧ ∃ results w',
       dispatch sample_env sample_urls 2 sample_world = (Ok results, w')
       ∧ ("http://a", "not found") ∈ results).
Proof.
  split; [lia|]. split; [reflexivity|]. split; [reflexivity|].
  apply (C7_status_is_not_an_error sample_env sample_urls 2 sample_world 0
           "http://a" 404 "not found");
    [lia|reflexivity|reflexivity].
Defined.

(** C3: for every URL list and every [max_workers >= 1], in every state
    the pool can reach under any interleaving of its threads, at most
    [max_workers] fetch tasks are in flight; the tasks are dispatched in
    input order (the tasks dispatched so far, then the queued ones, then
    the ones not yet submitted, are the input list); and a worker whose
    fetch completes takes, as its next step, the first task that has not
    been dispatched yet. *)
Theorem C3_bounded_concurrency (env : environment) (urls : list string)
    (max_workers : Z) (p : pool) :
  1 ≤ max_workers →
  reachable (Z.to_nat max_workers) (fetch_url env) (tasks_of urls) p →
  Z.of_nat (length (running p)) ≤ max_workers
  ∧ dispatched p ++ work_queue p ++ unsubmitted p = tasks_of urls
  ∧ ∀ i t0 t q,
      threads p !! i = Some (Running t0) →
      work_queue p = t :: q →
      tasks_of urls !! length (dispatched p) = Some t
      ∧ ∃ p1 p2,
          worker_step (fetch_url env) i p = Some p1
          ∧ finished p1 = finished p ++ [(t0, fetch_url env t0)]
          ∧ worker_step (fetch_url env) i p1 = Some p2
          ∧ threads p2 !! i = Some (Running t)
          ∧ work_queue p2 = q
          ∧ dispatched p2 = dispatched p ++ [t].
Proof.
  intros Hw Hreach.
  assert (1 ≤ Z.to_nat max_workers)%nat as Hnat by lia.
  pose proof (pool_inv_reachable _ _ _ Hnat p Hreach) as [Hth Hord _ _ _].
  split; [|split; [done|]].
  - pose proof (running_length (threads p)). rw /running. lia.
  - intros i t0 t q Hi Hq. split.
    + rw -Hord Hq. by rw list_lookup_middle.
    + pose proof (lookup_lt_Some _ _ _ Hi) as Hlt.
      rw /worker_step Hi. eexists _, _. split; [done|]. split; [done|].
      rw /= list_lookup_insert_eq // Hq. split; [done|].
      rw /= list_lookup_insert_eq ?length_insert //.
Qed.

Lemma C3_bounded_concurrency_witness :
  1 ≤ 2 ∧
  reachable (Z.to_nat 2) (fetch_url sample_env) (tasks_of sample_urls) sample_pool ∧
  (Z.of_nat (length (running sample_pool)) ≤ 2
   ∧ dispatched sample_pool ++ work_queue sample_pool ++ unsubmitted sample_pool
     = tasks_of sample_urls
   ∧ ∀ i t0 t q,
       threads sample_pool !! i = Some (Running t0) →
       work_queue sample_pool = t :: q →
       tasks_of sample_urls !! length (dispatched sample_pool) = Some t
       ∧ ∃ p1 p2,
           worker_step (fetch_url sample_env) i sample_pool = Some p1
           ∧ finished p1 = finished sample_pool ++ [(t0, fetch_url sample_env t0)]
           ∧ worker_step (fetch_url sample_env) i p1 = Some p2
           ∧ threads p2 !! i = Some (Running t)
           ∧ work_queue p2 = q
           ∧ dispatched p2 = dispatched sample_pool ++ [t]).
Proof.
  assert (reachable (Z.to_nat 2) (fetch_url sample_env) (tasks_of sample_urls)
            sample_pool) as Hreach.
  { rw /reachable.
    eapply rtc_l; [exists Submit; reflexivity|].
    eapply rtc_l; [exists (Act 0); reflexivity|].
    eapply rtc_l; [exists Submit; reflexivity|].
    eapply rtc_l; [exists (Act 1); reflexivity|].
    eapply rtc_l; [exists Submit; reflexivity|].
    reflexivity. }
  split; [lia|]. split; [exact Hreach|].
  apply (C3_bounded_concurrency sample_env sample_urls 2 sample_pool); [lia|exact Hreach].
Defined.

(** C10: for every [max_workers <= 0] the entry point raises the
    [ValueError] of the thread-pool constructor and leaves the world as it
    was: no URL is requested, nothing is printed and no file is written.
    The worker count is neither clamped nor accepted. *)
Theorem C10_nonpositive_workers_rejected (env : environment) (urls : list string)
    (max_workers : Z) (output_file : option string)
    (output_json output_csv return_list : bool) (w : world) :
  max_workers ≤ 0 →
  main env urls max_workers output_file output_json output_csv return_list w
  = (Raise (ValueError "max_workers must be greater than 0"), w).
Proof.
  intros Hw. rw /main /mbind /M_bind /dispatch.
  destruct (max_workers <=? 0) eqn:Hle; [done|]. apply Z.leb_gt in Hle. lia.
Qed.

Lemma C10_nonpositive_workers_rejected_witness :
  0 ≤ 0 ∧
  main sample_env sample_urls 0 (Some "out.json") true true true sample_world
  = (Raise (ValueError "max_workers must be greater than 0"), sample_world).
Proof.
  split; [lia|].
  apply (C10_nonpositive_workers_rejected sample_env sample_urls 0 (Some "out.json")
           true true true sample_world).
  lia.
Defined.

(** C5: when CSV output is requested and there is no output target
    ([output_file] is [None] or empty), [main] returns normally, prints
    the message that CSV cannot go to standard output, writes no file,
    prints no CSV content (the message is the only text printed besides
    the JSON text, when JSON is requested too), and still returns the
    result list when [return_list] is set. *)
Theorem C5_csv_needs_a_target (env : environment) (urls : list string)
    (max_workers : Z) (output_file : option string)
    (output_json return_list : bool) (w : world) :
  1 ≤ max_workers →
  truthy output_file = false →
  ∃ results w1 w',
    dispatch env urls max_workers w = (Ok results, w1)
    ∧ main env urls max_workers output_file output_json true return_list w
      = (Ok (if return_list then Some results else None), w')
    ∧ files w' = files w
    ∧ stdout w'
      = (if output_json
         then stdout w +:+ json_dumps (dict_comprehension results) +:+ str1 LF
         else stdout w)
        +:+ "Cannot output CSV to stdout. Please specify an output file."
        +:+ str1 LF.
Proof.
  intros Hw Ht.
  destruct (dispatch_spec env urls max_workers w Hw) as (results & Hd & _).
  exists results. eexists. rw (main_unfold _ _ _ _ _ _ _ _ _ _ Hd).
  destruct output_json.
  - eexists. split; [done|]. rw emit_json_stdout // emit_csv_stdout //.
  - eexists. split; [done|]. rw /= emit_csv_stdout //.
Qed.

Lemma C5_csv_needs_a_target_witness :
  1 ≤ 2 ∧
  truthy None = false ∧
  ∃ results w1 w',
    dispatch sample_env sample_urls 2 sample_world = (Ok results, w1)
    ∧ main sample_env sample_urls 2 None true true true sample_world
      = (Ok (if true then Some results else None), w')
    ∧ files w' = files sample_world
    ∧ stdout w'
      = (if true
         then stdout sample_world +:+ json_dumps (dict_comprehension results) +:+ str1 LF
         else stdout sample_world)
        +:+ "Cannot output CSV to stdout. Please specify an output file."
        +:+ str1 LF.
Proof.
  split; [lia|]. split; [reflexivity|].
  apply (C5_csv_needs_a_target sample_env sample_urls 2 None true true sample_world);
    [lia|reflexivity].
Defined.

(** C8: with [max_workers >= 1] and an output target that can be opened
    for writing, [main] returns the raw list of [(url, result)] pairs when
    [return_list] is true, whether or not JSON or CSV was emitted as well,
    and returns [None] when [return_list] is false; when neither JSON nor
    CSV is requested, nothing is printed and no file is written. *)
Theorem C8_return_value (env : environment) (urls : list string)
    (max_workers : Z) (output_file : option string)
    (output_json output_csv return_list : bool) (w : world) :
  1 ≤ max_workers →
  (∀ path, output_file = Some path → can_write env path = true) →
  ∃ results w1 w',
    dispatch env urls max_workers w = (Ok results, w1)
    ∧ main env urls max_workers output_file output_json output_csv return_list w
      = (Ok (if return_list then Some results else None), w')
    ∧ (output_json = false → output_csv = false →
       w' = w1 ∧ stdout w' = stdout w ∧ files w' = files w).
Proof.
  intros Hw Hcan.
  destruct (dispatch_spec env urls max_workers w Hw) as (results & Hd & _).
  exists results. eexists.
  assert (∃ w2, (if output_json then emit_json env results output_file else mret ())
                  (World (stdout w) (files w) (requests w ++ urls)) = (Ok (), w2)
                ∧ (output_json = false →
                   w2 = World (stdout w) (files w) (requests w ++ urls)))
    as (w2 & Hj & Hj').
  { destruct output_json.
    - destruct (emit_json_ok env results output_file
                  (World (stdout w) (files w) (requests w ++ urls)) Hcan) as [w2 Hw2].
      by exists w2.
    - by eexists. }
  assert (∃ w3, (if output_csv then emit_csv env results output_file else mret ()) w2
                = (Ok (), w3)
                ∧ (output_csv = false → w3 = w2))
    as (w3 & Hc & Hc').
  { destruct output_csv.
    - destruct (emit_csv_ok env results output_file w2 Hcan) as [w3 Hw3].
      by exists w3.
    - by eexists. }
  exists w3. split; [done|]. split.
  - by rw (main_unfold _ _ _ _ _ _ _ _ _ _ Hd) Hj Hc.
  - intros Hoj Hoc. rw (Hc' Hoc) (Hj' Hoj). done.
Qed.

Lemma C8_return_value_witness :
  1 ≤ 2 ∧
  (∀ path, Some "out.json" = Some path → can_write sample_env path = true) ∧
  ∃ results w1 w',
    dispatch sample_env sample_urls 2 sample_world = (Ok results, w1)
    ∧ main sample_env sample_urls 2 (Some "out.json") true false true sample_world
      = (Ok (if true then Some results else None), w')
    ∧ (true = false → false = false →
       w' = w1 ∧ stdout w' = stdout sample_world ∧ files w' = files sample_world).
Proof.
  split; [lia|]. split; [reflexivity|].
  apply (C8_return_value sample_env sample_urls 2 (Some "out.json") true false true
           sample_world);
    [lia|reflexivity].
Defined.

(** ** The JSON text *)

Lemma is_ascii_app (s t : string) : is_ascii (s +:+ t) = is_ascii s && is_ascii t.
Proof.
  induction s as [|c s IH]; [done|]. by rw /= IH andb_assoc.
Qed.

Lemma escape_char_ascii (c : ascii) : is_ascii (escape_char c) = true.
Proof.
  destruct c as [[] [] [] [] [] [] [] []]; reflexivity.
Qed.

Lemma escape_body_ascii (s : string) : is_ascii (escape_body s) = true.
Proof.
  induction s as [|c s IH]; [done|].
  by rw /= is_ascii_app escape_char_ascii IH.
Qed.

Lemma json_string_ascii (s : string) : is_ascii (json_string s) = true.
Proof.
  by rw /json_string /= is_ascii_app escape_body_ascii.
Qed.

Lemma json_item_ascii (kv : string * string) : is_ascii (json_item kv) = true.
Proof.
  by rw /json_item !is_ascii_app !json_string_ascii.
Qed.

Lemma json_items_ascii (d : pydict) : is_ascii (json_items d) = true.
Proof.
  induction d as [|kv [|kv' d] IH]; [done|apply json_item_ascii|].
  change (json_items (kv :: kv' :: d))
    with (json_item kv +:+ "," +:+ str1 LF +:+ "  " +:+ json_items (kv' :: d)).
  by rw is_ascii_app json_item_ascii 3!is_ascii_app IH.
Qed.

Lemma json_dumps_ascii (d : pydict) : is_ascii (json_dumps d) = true.
Proof.
  destruct d as [|kv d]; [done|].
  rw /json_dumps !is_ascii_app. by rw json_items_ascii.
Qed.

(** The spec's example of a duplicated URL: one key, bound to the outcome
    that comes last in the result list. *)
Example json_duplicate_urls :
  json_dumps (dict_comprehension [("http://a", "first"); ("http://a", "second")])
  = "{" +:+ str1 LF +:+ "  "
    +:+ str1 dquote +:+ "http://a" +:+ str1 dquote +:+ ": "
    +:+ str1 dquote +:+ "second" +:+ str1 dquote +:+ str1 LF +:+ "}".
Proof. reflexivity. Qed.

(** C9: JSON formatting depends on the result list only. Formatting the
    same results twice in a row returns normally both times and emits the
    same text [json.dumps(...)] both times: to standard output the two
    calls print the same line one after the other; to a file, the file
    holds that text after the first call and after the second, and the
    second call changes nothing. The text is pure ASCII, so the bytes
    written are the same as well. *)
Theorem C9_json_output_deterministic (env : environment)
    (results : list (string * string)) (output_file : option string) (w : world) :
  (∀ path, output_file = Some path → can_write env path = true) →
  ∃ w1 w2,
    emit_json env results output_file w = (Ok (), w1)
    ∧ emit_json env results output_file w1 = (Ok (), w2)
    ∧ is_ascii (json_dumps (dict_comprehension results)) = true
    ∧ (truthy output_file = false →
       stdout w1 = stdout w +:+ json_dumps (dict_comprehension results) +:+ str1 LF
       ∧ stdout w2 = stdout w1 +:+ json_dumps (dict_comprehension results) +:+ str1 LF
       ∧ files w2 = files w)
    ∧ (∀ path, truthy output_file = true → output_file = Some path →
       files w1 !! path = Some (json_dumps (dict_comprehension results))
       ∧ files w2 !! path = Some (json_dumps (dict_comprehension results))
       ∧ w2 = w1).
Proof.
  intros Hcan. destruct (truthy output_file) eqn:Ht.
  - destruct output_file as [path|]; [|done]. simpl in Ht.
    pose proof (Hcan path eq_refl) as Hp.
    eexists _, _. split; [by apply emit_json_file|].
    split; [by apply emit_json_file|].
    split; [apply json_dumps_ascii|]. split; [done|].
    intros path' _ [= <-]. simpl.
    rw insert_insert_eq !lookup_insert_eq. done.
  - eexists _, _. split; [by apply emit_json_stdout|].
    split; [by apply emit_json_stdout|].
    split; [apply json_dumps_ascii|]. split; [done|]. done.
Qed.

Lemma C9_json_output_deterministic_witness :
  (∀ path, Some "out.json" = Some path → can_write sample_env path = true) ∧
  ∃ w1 w2,
    emit_json sample_env [("http://a", "x"); ("http://a", "y")] (Some "out.json")
      sample_world = (Ok (), w1)
    ∧ emit_json sample_env [("http://a", "x"); ("http://a", "y")] (Some "out.json") w1
      = (Ok (), w2)
    ∧ is_ascii (json_dumps (dict_comprehension [("http://a", "x"); ("http://a", "y")]))
      = true
    ∧ (truthy (Some "out.json") = false →
       stdout w1
       = stdout sample_world
         +:+ json_dumps (dict_comprehension [("http://a", "x"); ("http://a", "y")])
         +:+ str1 LF
       ∧ stdout w2
         = stdout w1
           +:+ json_dumps (dict_comprehension [("http://a", "x"); ("http://a", "y")])
           +:+ str1 LF
       ∧ files w2 = files sample_world)
    ∧ (∀ path, truthy (Some "out.json") = true → Some "out.json" = Some path →
       files w1 !! path
       = Some (json_dumps (dict_comprehension [("http://a", "x"); ("http://a", "y")]))
       ∧ files w2 !! path
         = Some (json_dumps (dict_comprehension [("http://a", "x"); ("http://a", "y")]))
       ∧ w2 = w1).
Proof.
  split; [reflexivity|].
  apply (C9_json_output_deterministic sample_env
           [("http://a", "x"); ("http://a", "y")] (Some "out.json") sample_world).
  reflexivity.
Defined.


(** C4 (defect of the code): the claim says the command line reads the
    input file and dispatches its non-blank lines with the [--workers] and
    [--output] values. The code prints the banner and then raises
    [AttributeError] on [args.input_file], for every command line: the
    parser stores the values under [input], [workers] and [output]. No
    file is read, no URL is requested, nothing else is printed. *)
Theorem C4_cli_raises_attribute_error (env : environment) (argv : cli_args)
    (w : world) :
  cli env argv w
  = (Raise (AttributeError "'Namespace' object has no attribute 'input_file'"),
     World (stdout w +:+ banner +:+ str1 LF) (files w) (requests w)).
Proof.
  destruct argv. reflexivity.
Qed.

(** The command line [fetcher.py urls.txt] on the spec's example file:
    the two URLs of the file are never dispatched. *)
Example cli_example :
  cli sample_env (CliArgs "urls.txt" None false false 5)
    (World EmptyString
       {["urls.txt" := "http://example.com" +:+ str1 LF +:+ str1 LF
                       +:+ "http://example.org" +:+ str1 LF]} [])
  = (Raise (AttributeError "'Namespace' object has no attribute 'input_file'"),
     World (banner +:+ str1 LF)
       {["urls.txt" := "http://example.com" +:+ str1 LF +:+ str1 LF
                       +:+ "http://example.org" +:+ str1 LF]} []).
Proof. reflexivity. Qed.

(** What the list comprehension of line 116 gives on that file: the blank
    line is dropped. *)
Example read_urls_example :
  read_urls ("http://example.com" +:+ str1 LF +:+ str1 LF
             +:+ "http://example.org" +:+ str1 LF)
  = ["http://example.com"; "http://example.org"].
Proof. reflexivity. Qed.

(** * Further properties of the code *)

(** ** The dispatcher *)



Lemma expected_results_ext (env env' : environment) (urls : list string) :
  (∀ i url, requests_get env i url = requests_get env' i url) →
  expected_results env urls = expected_results env' urls.
Proof.
  intros Hget. rw /expected_results. apply list_fmap_ext. intros _ t _.
  by rw /fetch_url Hget.
Qed.

(** X2: the pairs collected do not depend on the number of workers, on
    the interleaving of the threads or on the order in which
    [as_completed] yields: two runs over the same URLs against the same
    network, with any two worker counts [>= 1], return the same pairs up
    to their order. *)
Theorem X2_results_independent_of_scheduling (env env' : environment)
    (urls : list string) (max_workers max_workers' : Z) (w w' : world) :
  (∀ i url, requests_get env i url = requests_get env' i url) →
  1 ≤ max_workers →
  1 ≤ max_workers' →
  ∃ results results' w1 w1',
    dispatch env urls max_workers w = (Ok results, w1)
    ∧ dispatch env' urls max_workers' w' = (Ok results', w1')
    ∧ results ≡ₚ results'.
Proof.
  intros Hget Hw Hw'.
  destruct (dispatch_spec env urls max_workers w Hw) as (results & Hd & Hperm).
  destruct (dispatch_spec env' urls max_workers' w' Hw') as (results' & Hd' & Hperm').
  eexists _, _, _, _. split; [done|]. split; [done|].
  by rw Hperm Hperm' (expected_results_ext env env').
Qed.

Lemma X2_results_independent_of_scheduling_witness :
  (∀ i url, requests_get sample_env i url = requests_get sample_env_shuffled i url) ∧
  1 ≤ 1 ∧
  1 ≤ 3 ∧
  ∃ results results' w1 w1',
    dispatch sample_env sample_urls 1 sample_world = (Ok results, w1)
    ∧ dispatch sample_env_shuffled sample_urls 3 sample_world = (Ok results', w1')
    ∧ results ≡ₚ results'.
Proof.
  split; [reflexivity|]. split; [lia|]. split; [lia|].
  apply (X2_results_independent_of_scheduling sample_env sample_env_shuffled
           sample_urls 1 3 sample_world sample_world);
    [reflexivity|lia|lia].
Defined.

(** ** The formatter and the files *)

(** X3: when both JSON and CSV are requested with the same writable
    output file, [main] writes the JSON text and then overwrites it with
    the CSV table: the file ends up holding the header row and one row
    per result, nothing is printed, and the call returns normally. *)
Theorem X3_csv_overwrites_json (env : environment) (urls : list string)
    (max_workers : Z) (path : string) (return_list : bool) (w : world) :
  1 ≤ max_workers →
  str_truthy path = true →
  can_write env path = true →
  ∃ results w1 w',
    dispatch env urls max_workers w = (Ok results, w1)
    ∧ main env urls max_workers (Some path) true true return_list w
      = (Ok (if return_list then Some results else None), w')
    ∧ files w' = <[path := csv_row "URL" "Result" +:+ csv_rows results]> (files w)
    ∧ stdout w' = stdout w.
Proof.
  intros Hw Hp Hcan.
  destruct (dispatch_spec env urls max_workers w Hw) as (results & Hd & _).
  eexists _, _, _. split; [done|].
  rw (main_unfold _ _ _ _ _ _ _ _ _ _ Hd) emit_json_file // emit_csv_file //=.
  by rw insert_insert_eq.
Qed.

Lemma X3_csv_overwrites_json_witness :
  1 ≤ 2 ∧
  str_truthy "out.csv" = true ∧
  can_write sample_env "out.csv" = true ∧
  ∃ results w1 w',
    dispatch sample_env sample_urls 2 sample_world = (Ok results, w1)
    ∧ main sample_env sample_urls 2 (Some "out.csv") true true false sample_world
      = (Ok (if false then Some results else None), w')
    ∧ files w'
      = <["out.csv" := csv_row "URL" "Result" +:+ csv_rows results]> (files sample_world)
    ∧ stdout w' = stdout sample_world.
Proof.
  split; [lia|]. split; [reflexivity|]. split; [reflexivity|].
  apply (X3_csv_overwrites_json sample_env sample_urls 2 "out.csv" false sample_world);
    [lia|reflexivity|reflexivity].
Defined.

(** X4: when a format is requested and the output file cannot be opened
    for writing, [main] raises, after every URL has been fetched: the
    requests have all been made, no file is changed, nothing is printed,
    and the result list is not returned even when [return_list] is set. *)
Theorem X4_unwritable_target_raises (env : environment) (urls : list string)
    (max_workers : Z) (path : string) (output_json output_csv return_list : bool)
    (w : world) :
  1 ≤ max_workers →
  str_truthy path = true →
  can_write env path = false →
  output_json || output_csv = true →
  ∃ e,
    main env urls max_workers (Some path) output_json output_csv return_list w
    = (Raise e, World (stdout w) (files w) (requests w ++ urls)).
Proof.
  intros Hw Hp Hcan Hfmt.
  destruct (dispatch_spec env urls max_workers w Hw) as (results & Hd & _).
  rw (main_unfold _ _ _ _ _ _ _ _ _ _ Hd).
  destruct output_json; [|destruct output_csv; [|done]];
    rw /= ?/emit_json ?/emit_csv Hp /write_file Hcan /=; by eexists.
Qed.

Lemma X4_unwritable_target_raises_witness :
  1 ≤ 2 ∧
  str_truthy "out.json" = true ∧
  can_write sample_env_readonly "out.json" = false ∧
  true || false = true ∧
  ∃ e,
    main sample_env_readonly sample_urls 2 (Some "out.json") true false true sample_world
    = (Raise e,
       World (stdout sample_world) (files sample_world)
         (requests sample_world ++ sample_urls)).
Proof.
  split; [lia|]. split; [reflexivity|]. split; [reflexivity|]. split; [reflexivity|].
  apply (X4_unwritable_target_raises sample_env_readonly sample_urls 2 "out.json"
           true false true sample_world);
    [lia|reflexivity|reflexivity|reflexivity].
Defined.

Lemma emit_json_effect env results output_file w :
  requests (emit_json env results output_file w).2 = requests w
  ∧ (∀ path, output_file ≠ Some path →
     files (emit_json env results output_file w).2 !! path = files w !! path)
  ∧ (truthy output_file = true →
     stdout (emit_json env results output_file w).2 = stdout w).
Proof.
  rw /emit_json /write_file /print.
  destruct output_file as [p|]; [destruct (str_truthy p) eqn:Hp;
                                 [destruct (can_write env p)|]|];
    simpl; rw ?Hp; (split; [done|split]); try done.
  intros path Hne. rw lookup_insert_ne //. congruence.
Qed.

Lemma emit_csv_effect env results output_file w :
  requests (emit_csv env results output_file w).2 = requests w
  ∧ (∀ path, output_file ≠ Some path →
     files (emit_csv env results output_file w).2 !! path = files w !! path)
  ∧ (truthy output_file = true →
     stdout (emit_csv env results output_file w).2 = stdout w).
Proof.
  rw /emit_csv /write_file /print.
  destruct output_file as [p|]; [destruct (str_truthy p) eqn:Hp;
                                 [destruct (can_write env p)|]|];
    simpl; rw ?Hp; (split; [done|split]); try done.
  intros path Hne. rw lookup_insert_ne //. congruence.
Qed.

Lemma main_rejects env urls max_workers output_file output_json output_csv
    return_list w :
  max_workers ≤ 0 →
  (main env urls max_workers output_file output_json output_csv return_list w).2 = w.
Proof.
  intros Hw. rw /main /mbind /M_bind /dispatch.
  destruct (max_workers <=? 0) eqn:Hle; [done|]. apply Z.leb_gt in Hle. lia.
Qed.

Lemma main_effect env urls max_workers output_file output_json output_csv
    return_list w :
  (∀ path, output_file ≠ Some path →
     files (main env urls max_workers output_file output_json output_csv
              return_list w).2 !! path = files w !! path)
  ∧ (truthy output_file = true →
     stdout (main env urls max_workers output_file output_json output_csv
               return_list w).2 = stdout w).
Proof.
  destruct (decide (max_workers ≤ 0)) as [Hle|Hgt].
  { by rw main_rejects. }
  destruct (dispatch_spec env urls max_workers w) as (results & Hd & _); [lia|].
  rw (main_unfold _ _ _ _ _ _ _ _ _ _ Hd).
  set (w1 := World (stdout w) (files w) (requests w ++ urls)).
  assert (∃ r2 w2,
    (if output_json then emit_json env results output_file else mret ()) w1 = (r2, w2)
    ∧ (∀ path, output_file ≠ Some path → files w2 !! path = files w !! path)
    ∧ (truthy output_file = true → stdout w2 = stdout w)) as (r2 & w2 & -> & Hf2 & Hs2).
  { destruct output_json.
    - destruct (emit_json_effect env results output_file w1) as (_ & Hf & Hs).
      destruct (emit_json env results output_file w1) as [r2 w2]. by eexists _, _.
    - by eexists _, _. }
  destruct r2 as [[]|e]; [|done].
  assert (∃ r3 w3,
    (if output_csv then emit_csv env results output_file else mret ()) w2 = (r3, w3)
    ∧ (∀ path, output_file ≠ Some path → files w3 !! path = files w !! path)
    ∧ (truthy output_file = true → stdout w3 = stdout w)) as (r3 & w3 & -> & Hf3 & Hs3).
  { destruct output_csv.
    - destruct (emit_csv_effect env results output_file w2) as (_ & Hf & Hs).
      destruct (emit_csv env results output_file w2) as [r3 w3]. simpl in *.
      eexists _, _. split; [done|]. split.
      + intros path Hne. by rw Hf // Hf2.
      + intros Ht. by rw Hs // Hs2.
    - by eexists _, _. }
  by destruct r3 as [[]|e].
Qed.

(** X5: [main] writes to no file but [output_file]: whatever the
    arguments, and whether the call returns or raises, every other path
    of the file system holds after the call what it held before. *)
Theorem X5_only_output_file_written (env : environment) (urls : list string)
    (max_workers : Z) (output_file : option string)
    (output_json output_csv return_list : bool) (w : world) (path : string) :
  output_file ≠ Some path →
  files (main env urls max_workers output_file output_json output_csv
           return_list w).2 !! path
  = files w !! path.
Proof.
  intros Hne.
  destruct (main_effect env urls max_workers output_file output_json output_csv
              return_list w) as [Hfiles _].
  by apply Hfiles.
Qed.

Lemma X5_only_output_file_written_witness :
  Some "out.json" ≠ Some "urls.txt" ∧
  files (main sample_env sample_urls 2 (Some "out.json") true true true
           (World EmptyString {["urls.txt" := "http://a"]} [])).2 !! "urls.txt"
  = files (World EmptyString {["urls.txt" := "http://a"]} []) !! "urls.txt".
Proof.
  split; [discriminate|].
  apply (X5_only_output_file_written sample_env sample_urls 2 (Some "out.json")
           true true true (World EmptyString {["urls.txt" := "http://a"]} [])
           "urls.txt").
  discriminate.
Defined.

(** X6: when a non-empty output path is given, [main] prints nothing,
    whatever the formats requested and whether the call returns or
    raises: the JSON text, the CSV table and the errors never reach
    standard output. *)
Theorem X6_silent_with_target (env : environment) (urls : list string)
    (max_workers : Z) (output_file : option string)
    (output_json output_csv return_list : bool) (w : world) :
  truthy output_file = true →
  stdout (main env urls max_workers output_file output_json output_csv
            return_list w).2
  = stdout w.
Proof.
  intros Ht.
  destruct (main_effect env urls max_workers output_file output_json output_csv
              return_list w) as [_ Hstdout].
  by apply Hstdout.
Qed.

Lemma X6_silent_with_target_witness :
  truthy (Some "out.json") = true ∧
  stdout (main sample_env sample_urls 2 (Some "out.json") true true true
            sample_world).2
  = stdout sample_world.
Proof.
  split; [reflexivity|].
  apply (X6_silent_with_target sample_env sample_urls 2 (Some "out.json")
           true true true sample_world).
  reflexivity.
Defined.

(** ** The JSON dictionary *)

Lemma dict_set_fresh (d : pydict) k v : k ∉ d.*1 → dict_set d k v = d ++ [(k, v)].
Proof.
  induction d as [|[k0 v0] d IH]; [done|].
  rw fmap_cons /= not_elem_of_cons. intros [Hne Hnin].
  destruct (decide (k0 = k)) as [->|_]; [done|]. by rw IH.
Qed.

(** X7: when the URLs of the result list are pairwise distinct, the
    dictionary serialised in JSON mode is the result list itself: every
    pair is kept, in the order the results were collected. *)
Theorem X7_distinct_urls_keep_all (results : list (string * string)) :
  NoDup results.*1 →
  dict_comprehension results = results.
Proof.
  induction results as [|[k v] results IH] using rev_ind; [done|].
  rw fmap_app /=. intros [Hnd [Hk _]]%NoDup_app.
  rw dict_comprehension_snoc IH // dict_set_fresh //.
  intros Hin. apply (Hk k Hin). by left.
Qed.

Lemma X7_distinct_urls_keep_all_witness :
  NoDup [("http://b", "x"); ("http://a", "y")].*1 ∧
  dict_comprehension [("http://b", "x"); ("http://a", "y")]
  = [("http://b", "x"); ("http://a", "y")].
Proof.
  assert (NoDup [("http://b", "x"); ("http://a", "y")].*1) as Hnd.
  { apply NoDup_cons_2; [|apply NoDup_singleton].
    intros Hin%list_elem_of_singleton. discriminate. }
  split; [exact Hnd|].
  apply (X7_distinct_urls_keep_all [("http://b", "x"); ("http://a", "y")] Hnd).
Defined.

(** X8: the JSON dictionary never has more entries than the result
    list, and it has as many exactly when no URL occurs twice among the
    results: JSON mode loses a pair if and only if a URL is duplicated. *)
Theorem X8_json_loses_only_duplicates (results : list (string * string)) :
  (length (dict_comprehension results) ≤ length results)%nat
  ∧ (length (dict_comprehension results) = length results ↔ NoDup results.*1).
Proof.
  assert ((dict_comprehension results).*1 ⊆+ results.*1) as Hsub.
  { apply NoDup_submseteq; [apply dict_comprehension_NoDup|].
    intros url. apply dict_comprehension_keys. }
  pose proof (submseteq_length _ _ Hsub) as Hlen. rw !length_fmap in Hlen.
  split; [done|]. split.
  - intros Heq.
    assert ((dict_comprehension results).*1 ≡ₚ results.*1) as Hperm.
    { apply submseteq_length_Permutation; [done|]. rw !length_fmap. lia. }
    rw -Hperm. apply dict_comprehension_NoDup.
  - intros Hnd.
    assert (results.*1 ⊆+ (dict_comprehension results).*1) as Hsub'.
    { apply NoDup_submseteq; [done|]. intros url. apply dict_comprehension_keys. }
    pose proof (submseteq_length _ _ Hsub') as Hlen'. rw !length_fmap in Hlen'. lia.
Qed.

(** ** More on the thread pool *)

Lemma nsteps_measure (max_workers : nat) (fetch : task → result string) n p q :
  (1 ≤ max_workers)%nat →
  nsteps (pool_transition max_workers fetch) n p q →
  (n + pool_measure q ≤ pool_measure p)%nat.
Proof.
  intros Hw. induction 1 as [p|n p p' q [a Ha] _ IH]; [lia|].
  apply (pool_step_measure _ _ Hw) in Ha. lia.
Qed.

(** X9: the pool cannot run forever: from its initial state, whatever
    the interleaving, it takes at most five steps per URL (submit, poll,
    start, finish, block), so the [with] block of lines 52-60 is left
    once every fetch has returned. *)
Theorem X9_pool_terminates (env : environment) (urls : list string)
    (max_workers : Z) (n : nat) (p : pool) :
  1 ≤ max_workers →
  nsteps (pool_transition (Z.to_nat max_workers) (fetch_url env)) n
    (init_pool (tasks_of urls)) p →
  (n ≤ 5 * length urls)%nat.
Proof.
  intros Hw Hsteps.
  apply nsteps_measure in Hsteps; [|lia].
  pose proof (tasks_of_length urls) as Hlen.
  rw /pool_measure in Hsteps.
  cbn [init_pool unsubmitted work_queue threads length fmap list_fmap sum_list
       sum_list_with] in Hsteps.
  lia.
Qed.

Lemma X9_pool_terminates_witness :
  1 ≤ 2 ∧
  nsteps (pool_transition (Z.to_nat 2) (fetch_url sample_env)) 5
    (init_pool (tasks_of sample_urls)) sample_pool ∧
  (5 ≤ 5 * length sample_urls)%nat.
Proof.
  assert (nsteps (pool_transition (Z.to_nat 2) (fetch_url sample_env)) 5
            (init_pool (tasks_of sample_urls)) sample_pool) as Hsteps.
  { eapply nsteps_l; [exists Submit; reflexivity|].
    eapply nsteps_l; [exists (Act 0); reflexivity|].
    eapply nsteps_l; [exists Submit; reflexivity|].
    eapply nsteps_l; [exists (Act 1); reflexivity|].
    eapply nsteps_l; [exists Submit; reflexivity|].
    apply nsteps_O. }
  split; [lia|]. split; [exact Hsteps|].
  apply (X9_pool_terminates sample_env sample_urls 2 5 sample_pool); [lia|exact Hsteps].
Defined.

Lemma no_transition_not_enabled (max_workers : nat) (fetch : task → result string) p :
  (∀ p', ¬ pool_transition max_workers fetch p p') → enabled p = [].
Proof.
  intros Hstuck. destruct (enabled p) as [|a acts] eqn:Hen; [done|].
  destruct (enabled_step max_workers fetch a p) as [p' Hp']; [rw Hen; by left|].
  destruct (Hstuck p'). by exists a.
Qed.

(** X10: the pool never gets stuck with work left. In a reachable state
    where no thread can take a step, every URL has been submitted,
    dispatched and fetched: nothing is queued or in flight, and the
    finished futures are those of the whole input, each holding the
    outcome of its own fetch. *)
Theorem X10_pool_stops_only_when_done (env : environment) (urls : list string)
    (max_workers : Z) (p : pool) :
  1 ≤ max_workers →
  reachable (Z.to_nat max_workers) (fetch_url env) (tasks_of urls) p →
  (∀ p', ¬ pool_transition (Z.to_nat max_workers) (fetch_url env) p p') →
  unsubmitted p = [] ∧ work_queue p = [] ∧ running p = []
  ∧ dispatched p = tasks_of urls
  ∧ (finished p).*1 ≡ₚ tasks_of urls
  ∧ Forall (λ f, f.2 = fetch_url env f.1) (finished p).
Proof.
  intros Hw Hreach Hstuck.
  assert (1 ≤ Z.to_nat max_workers)%nat as Hnat by lia.
  pose proof (pool_inv_reachable _ _ _ Hnat p Hreach) as Hinv.
  apply no_transition_not_enabled in Hstuck.
  destruct (quiescent _ _ _ Hnat p Hinv Hstuck) as (Hun & Hq & Hrun).
  pose proof (inv_order _ _ _ _ Hinv) as Hord.
  pose proof (inv_flight _ _ _ _ Hinv) as Hfl.
  rw Hun Hq !app_nil_r in Hord. rw Hrun app_nil_r Hord in Hfl.
  split; [done|]. split; [done|]. split; [done|]. split; [done|]. split; [done|].
  apply (inv_outcomes _ _ _ _ Hinv).
Qed.

Lemma X10_pool_stops_only_when_done_witness :
  1 ≤ 2 ∧
  reachable (Z.to_nat 2) (fetch_url sample_env) (tasks_of ["http://a"]) sample_idle_pool ∧
  (∀ p', ¬ pool_transition (Z.to_nat 2) (fetch_url sample_env) sample_idle_pool p') ∧
  (unsubmitted sample_idle_pool = [] ∧ work_queue sample_idle_pool = []
   ∧ running sample_idle_pool = []
   ∧ dispatched sample_idle_pool = tasks_of ["http://a"]
   ∧ (finished sample_idle_pool).*1 ≡ₚ tasks_of ["http://a"]
   ∧ Forall (λ f, f.2 = fetch_url sample_env f.1) (finished sample_idle_pool)).
Proof.
  assert (reachable (Z.to_nat 2) (fetch_url sample_env) (tasks_of ["http://a"])
            sample_idle_pool) as Hreach.
  { rw /reachable.
    eapply rtc_l; [exists Submit; reflexivity|].
    eapply rtc_l; [exists (Act 0); reflexivity|].
    eapply rtc_l; [exists (Act 0); reflexivity|].
    eapply rtc_l; [exists (Act 0); reflexivity|].
    reflexivity. }
  assert (∀ p', ¬ pool_transition (Z.to_nat 2) (fetch_url sample_env)
                  sample_idle_pool p') as Hstuck.
  { intros p' [[|[|i]] Ha]; discriminate Ha. }
  split; [lia|]. split; [exact Hreach|]. split; [exact Hstuck|].
  apply (X10_pool_stops_only_when_done sample_env ["http://a"] 2 sample_idle_pool);
    [lia|exact Hreach|exact Hstuck].
Defined.

Lemma serial_step (fetch : task → result string) a p p' :
  (length (threads p) ≤ 1)%nat →
  (finished p).*1 ++ running p = dispatched p →
  pool_step 1 fetch a p = Some p' →
  (finished p').*1 ++ running p' = dispatched p'.
Proof.
  intros Hlen Hser. destruct a as [|i]; simpl.
  - rw /submit_step. destruct (unsubmitted p) as [|t rest]; [done|].
    intros [= <-].
    destruct (0 <? _)%nat; [|destruct (_ <? _)%nat]; simpl; try done.
    by rw /running /= /running_of omap_app /= app_nil_r.
  - rw /worker_step. rw /running in Hser.
    destruct (threads p) as [|th [|th' l]] eqn:Hth; simpl in Hlen; [done| |lia].
    destruct i as [|i]; [|done]. simpl.
    destruct th as [| |t]; [destruct (work_queue p) as [|t q]
                           |destruct (work_queue p) as [|t q]|];
      try done; intros [= <-]; rw /running /=; simpl in Hser.
    + done.
    + by rw -Hser app_nil_r.
    + by rw -Hser app_nil_r.
    + by rw fmap_app /= app_nil_r.
Qed.

(** X11: with a single worker the fetches are serialised in input
    order: in every reachable state at most one fetch is in flight, and
    the finished tasks, then the one in flight, then the queued ones, then
    the ones not yet submitted, are the input list. So with
    [max_workers = 1] the futures complete in the order of the URLs. *)
Theorem X11_single_worker_is_sequential (env : environment) (urls : list string)
    (p : pool) :
  reachable (Z.to_nat 1) (fetch_url env) (tasks_of urls) p →
  (finished p).*1 ++ running p ++ work_queue p ++ unsubmitted p = tasks_of urls
  ∧ (length (running p) ≤ 1)%nat.
Proof.
  intros Hreach.
  assert (1 ≤ Z.to_nat 1)%nat as Hnat by lia.
  pose proof (pool_inv_reachable _ _ _ Hnat p Hreach) as Hinv.
  pose proof (inv_threads _ _ _ _ Hinv) as Hth.
  assert ((finished p).*1 ++ running p = dispatched p) as Hser.
  { clear Hinv Hth. revert p Hreach.
    apply (rtc_ind_r (λ p, (finished p).*1 ++ running p = dispatched p)
             (init_pool (tasks_of urls))); [done|].
    intros p p' Hreach [a Ha] IH.
    pose proof (pool_inv_reachable _ _ _ Hnat p Hreach) as Hinv.
    eapply serial_step; [apply (inv_threads _ _ _ _ Hinv)|done|done]. }
  split.
  - by rw (assoc_L (++)) Hser (inv_order _ _ _ _ Hinv).
  - pose proof (running_length (threads p)). rw /running.
    change (Z.to_nat 1) with 1%nat in Hth. lia.
Qed.

Lemma X11_single_worker_is_sequential_witness :
  reachable (Z.to_nat 1) (fetch_url sample_env) (tasks_of sample_urls)
    sample_serial_pool ∧
  ((finished sample_serial_pool).*1 ++ running sample_serial_pool
   ++ work_queue sample_serial_pool ++ unsubmitted sample_serial_pool
   = tasks_of sample_urls
   ∧ (length (running sample_serial_pool) ≤ 1)%nat).
Proof.
  assert (reachable (Z.to_nat 1) (fetch_url sample_env) (tasks_of sample_urls)
            sample_serial_pool) as Hreach.
  { rw /reachable.
    eapply rtc_l; [exists Submit; reflexivity|].
    eapply rtc_l; [exists (Act 0); reflexivity|].
    eapply rtc_l; [exists Submit; reflexivity|].
    eapply rtc_l; [exists Submit; reflexivity|].
    eapply rtc_l; [exists (Act 0); reflexivity|].
    eapply rtc_l; [exists (Act 0); reflexivity|].
    reflexivity. }
  split; [exact Hreach|].
  apply (X11_single_worker_is_sequential sample_env sample_urls sample_serial_pool).
  exact Hreach.
Defined.

Lemma threads_step (max_workers : nat) (fetch : task → result string) a p p' :
  pool_step max_workers fetch a p = Some p' →
  (length (threads p') + length (unsubmitted p')
   ≤ length (threads p) + length (unsubmitted p))%nat.
Proof.
  destruct a as [|i]; simpl.
  - rw /submit_step. destruct (unsubmitted p) as [|t rest]; [done|].
    intros [= <-].
    destruct (0 <? _)%nat; [|destruct (_ <? _)%nat]; simpl;
      rw ?length_app /=; lia.
  - rw /worker_step. destruct (threads p !! i) as [th|]; [|done].
    destruct th as [| |t]; [destruct (work_queue p) as [|t q]
                           |destruct (work_queue p) as [|t q]|];
      try done; intros [= <-]; rw /= length_insert; lia.
Qed.

(** X12: worker threads are started on demand, one at most per
    submitted URL: in every reachable state the number of threads is at
    most [max_workers] and at most the number of URLs submitted so far,
    so a run over fewer URLs than [max_workers] never has more fetches in
    flight than it has URLs. *)
Theorem X12_threads_started_on_demand (env : environment) (urls : list string)
    (max_workers : Z) (p : pool) :
  1 ≤ max_workers →
  reachable (Z.to_nat max_workers) (fetch_url env) (tasks_of urls) p →
  Z.of_nat (length (threads p)) ≤ max_workers
  ∧ (length (threads p) + length (unsubmitted p) ≤ length urls)%nat
  ∧ (length (running p) ≤ length urls)%nat.
Proof.
  intros Hw Hreach.
  assert (1 ≤ Z.to_nat max_workers)%nat as Hnat by lia.
  pose proof (pool_inv_reachable _ _ _ Hnat p Hreach) as Hinv.
  pose proof (inv_threads _ _ _ _ Hinv) as Hth.
  assert (length (threads p) + length (unsubmitted p) ≤ length urls)%nat as Hsub.
  { clear Hinv Hth. revert p Hreach.
    apply (rtc_ind_r (λ p, (length (threads p) + length (unsubmitted p)
                            ≤ length urls)%nat) (init_pool (tasks_of urls))).
    - rw /= tasks_of_length. lia.
    - intros p p' _ [a Ha] IH. apply threads_step in Ha. lia. }
  split; [lia|]. split; [done|].
  pose proof (running_length (threads p)). rw /running. lia.
Qed.

Lemma X12_threads_started_on_demand_witness :
  1 ≤ 8 ∧
  reachable (Z.to_nat 8) (fetch_url sample_env) (tasks_of ["http://a"])
    sample_idle_pool ∧
  (Z.of_nat (length (threads sample_idle_pool)) ≤ 8
   ∧ (length (threads sample_idle_pool) + length (unsubmitted sample_idle_pool)
      ≤ length ["http://a"])%nat
   ∧ (length (running sample_idle_pool) ≤ length ["http://a"])%nat).
Proof.
  assert (reachable (Z.to_nat 8) (fetch_url sample_env) (tasks_of ["http://a"])
            sample_idle_pool) as Hreach.
  { rw /reachable.
    eapply rtc_l; [exists Submit; reflexivity|].
    eapply rtc_l; [exists (Act 0); reflexivity|].
    eapply rtc_l; [exists (Act 0); reflexivity|].
    eapply rtc_l; [exists (Act 0); reflexivity|].
    reflexivity. }
  split; [lia|]. split; [exact Hreach|].
  apply (X12_threads_started_on_demand sample_env ["http://a"] 8 sample_idle_pool);
    [lia|exact Hreach].
Defined.

(** ** Reading the URL file *)

Lemma str_app_cons (c : ascii) (s t : string) :
  String c s +:+ t = String c (s +:+ t).
Proof. reflexivity. Qed.

Lemma str_app_nil_l (s : string) : EmptyString +:+ s = s.
Proof. reflexivity. Qed.

Lemma str_app_assoc (s t u : string) : (s +:+ t) +:+ u = s +:+ t +:+ u.
Proof.
  induction s as [|c s IH]; [done|]. by rw !str_app_cons IH.
Qed.

Lemma str_app_nil_r (s : string) : s +:+ EmptyString = s.
Proof.
  induction s as [|c s IH]; [done|]. by rw str_app_cons IH.
Qed.

Lemma str_rev_onto_app (s acc : string) : str_rev_onto s acc = str_rev s +:+ acc.
Proof.
  revert acc. induction s as [|c s IH]; intros acc; [done|].
  rw /str_rev /= (IH (String c acc)) (IH (str1 c)) str_app_assoc. done.
Qed.

Lemma str_rev_cons (c : ascii) (s : string) :
  str_rev (String c s) = str_rev s +:+ str1 c.
Proof. by rw {1}/str_rev /= str_rev_onto_app. Qed.

Lemma str_rev_app (s t : string) : str_rev (s +:+ t) = str_rev t +:+ str_rev s.
Proof.
  induction s as [|c s IH].
  - by rw str_app_nil_l str_app_nil_r.
  - by rw str_app_cons !str_rev_cons IH str_app_assoc.
Qed.

Lemma str_rev_involutive (s : string) : str_rev (str_rev s) = s.
Proof.
  induction s as [|c s IH]; [done|]. by rw str_rev_cons str_rev_app IH.
Qed.

Lemma lstrip_starts_clean (s : string) : starts_clean (lstrip s).
Proof.
  induction s as [|c s IH]; [done|]. simpl. by destruct (isspace c) eqn:Hc.
Qed.

Lemma starts_clean_lstrip (s : string) : starts_clean s → lstrip s = s.
Proof.
  destruct s as [|c s]; [done|]. simpl. by intros ->.
Qed.

Lemma lstrip_suffix (s : string) : ∃ p, s = p +:+ lstrip s.
Proof.
  induction s as [|c s [p Hp]]; [by exists EmptyString|]. simpl.
  destruct (isspace c).
  - exists (String c p). by rw str_app_cons -Hp.
  - by exists EmptyString.
Qed.

Lemma starts_clean_app_l (s t : string) :
  s ≠ EmptyString → starts_clean (s +:+ t) → starts_clean s.
Proof. by destruct s. Qed.

Lemma str_rev_not_empty (s : string) : s ≠ EmptyString → str_rev s ≠ EmptyString.
Proof.
  destruct s as [|c s]; [done|]. intros _. rw str_rev_cons.
  by destruct (str_rev s).
Qed.

(** Stripping the right end keeps a clean left end. *)
Lemma rstrip_starts_clean (s : string) :
  starts_clean s → starts_clean (str_rev (lstrip (str_rev s))).
Proof.
  intros Hs. destruct (lstrip_suffix (str_rev s)) as [p Hp].
  apply (f_equal str_rev) in Hp. rw str_rev_involutive str_rev_app in Hp.
  destruct (decide (lstrip (str_rev s) = EmptyString)) as [->|Hne]; [done|].
  apply (starts_clean_app_l _ (str_rev p)); [by apply str_rev_not_empty|].
  by rw -Hp.
Qed.

Lemma strip_clean (s : string) :
  starts_clean (strip s) ∧ starts_clean (str_rev (strip s)).
Proof.
  rw /strip. split.
  - apply rstrip_starts_clean, lstrip_starts_clean.
  - rw str_rev_involutive. apply lstrip_starts_clean.
Qed.

Lemma strip_idempotent (s : string) : strip (strip s) = strip s.
Proof.
  destruct (strip_clean s) as [Hl Hr]. rw {1}/strip.
  by rw (starts_clean_lstrip _ Hl) (starts_clean_lstrip _ Hr) str_rev_involutive.
Qed.

(** X13: every URL that the list comprehension of line 116 takes from
    the input file is non-empty, begins and ends with a character that is
    not white space, and is left unchanged by a further [strip()]: blank
    lines never become URLs and no URL carries the newline of its line. *)
Theorem X13_urls_read_are_stripped (content : string) :
  Forall (λ url,
            url ≠ EmptyString
            ∧ starts_clean url
            ∧ starts_clean (str_rev url)
            ∧ strip url = url)
         (read_urls content).
Proof.
  rw /read_urls. apply Forall_forall. intros url Hin.
  apply list_elem_of_omap in Hin as (line & _ & Hline).
  destruct (str_truthy (strip line)) eqn:Ht; [|done].
  injection Hline as <-.
  destruct (strip_clean line) as [Hl Hr].
  split; [|split; [done|split; [done|apply strip_idempotent]]].
  intros Hempty. by rw Hempty in Ht.
Qed.

(** ** The JSON text determines the dictionary *)












(** ** The CSV text determines the rows *)

Lemma str_in_cons (c c' : ascii) (s : string) :
  str_in c (String c' s) = false ↔ c' ≠ c ∧ str_in c s = false.
Proof.
  simpl. destruct (decide (c' = c)) as [Heq|Hne]; split; try done.
  - by intros [Hne _].
  - by intros [_ Hin].
Qed.

Lemma scan_plain_field (a : string) (d : ascii) (rest : string) :
  csv_needs_quotes a = false →
  d = chr 44 ∨ d = CR →
  scan_plain (a +:+ String d rest) = (a, String d rest).
Proof.
  intros Hq Hd. induction a as [|c a IH].
  - rw str_app_nil_l. by destruct Hd as [-> | ->].
  - rw /csv_needs_quotes !orb_false_iff !str_in_cons in Hq.
    destruct Hq as [[[[Hc1 Ha1] [Hc2 Ha2]] [Hc3 Ha3]] [Hc4 Ha4]].
    rw str_app_cons /=.
    destruct (decide (c = chr 44)) as [|_]; [done|].
    destruct (decide (c = CR)) as [|_]; [done|].
    destruct (decide (c = LF)) as [|_]; [done|].
    rw IH //. by rw /csv_needs_quotes Ha1 Ha2 Ha3 Ha4.
Qed.

Lemma scan_quoted_field (a : string) (d : ascii) (rest : string) :
  d ≠ dquote →
  scan_quoted (csv_double_quotes a +:+ String dquote (String d rest))
  = Some (a, String d rest).
Proof.
  intros Hd. induction a as [|c a IH].
  - rw str_app_nil_l /=. destruct (decide (dquote = dquote)); [|done].
    by destruct (decide (d = dquote)).
  - simpl. destruct (decide (c = dquote)) as [->|Hc].
    + rw !str_app_cons /=. destruct (decide (dquote = dquote)); [|done].
      by rw IH.
    + rw str_app_cons /=. destruct (decide (c = dquote)); [done|]. by rw IH.
Qed.

Lemma needs_quotes_head (c : ascii) (a : string) :
  csv_needs_quotes (String c a) = false → c ≠ dquote.
Proof.
  rw /csv_needs_quotes !orb_false_iff !str_in_cons.
  by intros [[[_ [Hc _]] _] _].
Qed.

Lemma scan_csv_field (a : string) (d : ascii) (rest : string) :
  d = chr 44 ∨ d = CR →
  scan_field (csv_field a +:+ String d rest) = Some (a, String d rest).
Proof.
  intros Hd. rw /csv_field. destruct (csv_needs_quotes a) eqn:Hq.
  - rw str_app_cons /= str_app_assoc.
    destruct (decide (dquote = dquote)); [|done].
    apply scan_quoted_field. by destruct Hd as [-> | ->].
  - destruct a as [|c a].
    + rw str_app_nil_l /=. by destruct Hd as [-> | ->].
    + pose proof (needs_quotes_head c a Hq) as Hc.
      rw /scan_field str_app_cons. destruct (decide (c = dquote)); [done|].
      by rw -str_app_cons scan_plain_field.
Qed.

Lemma csv_row_app (a b rest : string) :
  csv_row a b +:+ rest
  = csv_field a +:+ String (chr 44) (csv_field b +:+ String CR (String LF rest)).
Proof.
  by rw /csv_row !str_app_assoc.
Qed.

Lemma csv_row_inj (a1 b1 a2 b2 r1 r2 : string) :
  csv_row a1 b1 +:+ r1 = csv_row a2 b2 +:+ r2 → a1 = a2 ∧ b1 = b2 ∧ r1 = r2.
Proof.
  rw !csv_row_app. intros Heq.
  pose proof (f_equal scan_field Heq) as Ha.
  rw !(scan_csv_field _ (chr 44) _ (or_introl eq_refl)) in Ha.
  injection Ha as -> Hb.
  pose proof (f_equal scan_field Hb) as Hb'.
  rw !(scan_csv_field _ CR _ (or_intror eq_refl)) in Hb'.
  by injection Hb' as -> ->.
Qed.

Lemma csv_row_not_empty (a b rest : string) : csv_row a b +:+ rest ≠ EmptyString.
Proof.
  rw csv_row_app. by destruct (csv_field a).
Qed.

Lemma csv_rows_inj (rows1 rows2 : list (string * string)) :
  csv_rows rows1 = csv_rows rows2 → rows1 = rows2.
Proof.
  revert rows2.
  induction rows1 as [|[a1 b1] rows1 IH]; intros [|[a2 b2] rows2]; simpl; [done| | |].
  - intros Heq. symmetry in Heq. by apply csv_row_not_empty in Heq.
  - intros Heq. by apply csv_row_not_empty in Heq.
  - intros (-> & -> & Heq)%csv_row_inj. f_equal. by apply IH.
Qed.

(** X15: the CSV file determines the result list: two result lists that
    differ (in a URL, an outcome, the number of rows or their order) are
    never written as the same table, whatever commas, quotes or line
    breaks the outcomes hold. Unlike the JSON output, the CSV output
    keeps the pairs of duplicated URLs. *)
Theorem X15_csv_text_is_unambiguous (results1 results2 : list (string * string)) :
  results1 ≠ results2 →
  csv_row "URL" "Result" +:+ csv_rows results1
  ≠ csv_row "URL" "Result" +:+ csv_rows results2.
Proof.
  intros Hne Heq. apply Hne.
  apply csv_row_inj in Heq as (_ & _ & Heq). by apply csv_rows_inj.
Qed.

Lemma X15_csv_text_is_unambiguous_witness :
  [("http://a", "x,y")] ≠ [("http://a,x", "y")] ∧
  csv_row "URL" "Result" +:+ csv_rows [("http://a", "x,y")]
  ≠ csv_row "URL" "Result" +:+ csv_rows [("http://a,x", "y")].
Proof.
  split; [discriminate|].
  apply (X15_csv_text_is_unambiguous [("http://a", "x,y")] [("http://a,x", "y")]).
  discriminate.
Defined.

(** ** The requests made by [main] *)


